(** * TreeListings: the listing-publication transaction and the read façade

    A shallow embedding of [src/firebase/db.ts].  The functions of that file
    ([uploadListing], [getDocument], [getUserProfile], [getAllListings],
    [createPostListingListener]) are written against the Firestore client; the
    store itself is a collaborator whose transaction primitive is modelled
    here as an optimistic read-validate-commit loop with bounded retry. *)

From Stdlib Require Import ZArith Lia.
From stdpp Require Import base option list strings gmap.

Local Open Scope Z_scope.
Local Open Scope string_scope.
Local Open Scope list_scope.

(** ** Domain model ([src/types]) *)

Abbreviation UserId := string (only parsing).
Abbreviation ListingId := string (only parsing).

(** Field values of a stored document.  [number] fields hold integers here:
    the code only ever stores the caller's price unchanged and counts
    listings. *)
Inductive Value : Type :=
  | VNull
  | VBool (b : bool)
  | VNum (n : Z)
  | VStr (s : string)
  | VArr (l : list string)
  | VDate (t : Z).

#[global] Instance Value_eq_dec : EqDecision Value.
Proof. solve_decision. Defined.

(** A document's data is an object: field name to value. *)
Abbreviation DocData := (gmap string Value).

(** A document reference [doc(firestore, collection, id)]. *)
Abbreviation DocRef := (string * string)%type.

(** What a field of an [update] payload may be: a literal or the store-side
    [increment(n)] transform. *)
Inductive FieldValue : Type :=
  | FLit (v : Value)
  | FIncrement (n : Z).

#[global] Instance FieldValue_eq_dec : EqDecision FieldValue.
Proof. solve_decision. Defined.

Inductive Error : Type :=
  | AssetUploadError
  | Aborted
  | NotFound
  | ReadAfterWrite
  | TypeError
  | Unavailable.

#[global] Instance Error_eq_dec : EqDecision Error.
Proof. solve_decision. Defined.

(** A settled promise. *)
Inductive Promise (A : Type) : Type :=
  | Resolved (a : A)
  | Rejected (e : Error).
Arguments Resolved {A} a.
Arguments Rejected {A} e.

(** The argument object of [uploadListing]. *)
Record ListingInput : Type := mkListingInput {
  sellerId : UserId;
  title : string;
  price : Z;
  image : option string;
  datePosted : Z;
  description : string;
  categories : list string;
  isListingActive : bool
}.

(** JavaScript truthiness of a string: only the empty string is falsy. *)
Definition truthy (s : string) : bool :=
  match s with EmptyString => false | _ => true end.

(** ** The transaction body as a command tree

    The callback handed to [runTransaction] talks to three collaborators: the
    client-side id generator ([doc(collectionRef)]), the asset uploader
    ([uploadImageAsync]) and the transaction handle ([get], [set],
    [update]).  Each call is a node; the store re-runs the whole tree on a
    conflicting commit. *)
Inductive Tx (A : Type) : Type :=
  | Ret (a : A)
  | Throw (e : Error)
  | NewDoc (coll : string) (k : DocRef → Tx A)
  | UploadImage (img : string) (owner : string) (k : string → Tx A)
  | TxGet (r : DocRef) (k : option DocData → Tx A)
  | TxSet (r : DocRef) (d : DocData) (k : Tx A)
  | TxUpdate (r : DocRef) (u : list (string * FieldValue)) (k : Tx A).
Arguments Ret {A} a.
Arguments Throw {A} e.
Arguments NewDoc {A} coll k.
Arguments UploadImage {A} img owner k.
Arguments TxGet {A} r k.
Arguments TxSet {A} r d k.
Arguments TxUpdate {A} r u k.

Fixpoint bind {A B : Type} (p : Tx A) (f : A → Tx B) : Tx B :=
  match p with
  | Ret a => f a
  | Throw e => Throw e
  | NewDoc c k => NewDoc c (λ x, bind (k x) f)
  | UploadImage i o k => UploadImage i o (λ x, bind (k x) f)
  | TxGet r k => TxGet r (λ x, bind (k x) f)
  | TxSet r d k => TxSet r d (bind k f)
  | TxUpdate r u k => TxUpdate r u (bind k f)
  end.

Notation "'let!' x ':=' p 'in' q" := (bind p (λ x, q))
  (at level 10, x name, p at level 100, q at level 200, only parsing).
Notation "'do!' p 'in' q" := (bind p (λ _, q))
  (at level 10, p at level 100, q at level 200, only parsing).

Definition new_doc (coll : string) : Tx DocRef := NewDoc coll Ret.
Definition uploadImageAsync (img owner : string) : Tx string :=
  UploadImage img owner Ret.
Definition tx_get (r : DocRef) : Tx (option DocData) := TxGet r Ret.
Definition tx_set (r : DocRef) (d : DocData) : Tx unit := TxSet r d (Ret tt).
Definition tx_update (r : DocRef) (u : list (string * FieldValue)) : Tx unit :=
  TxUpdate r u (Ret tt).

(** [Promise.all(refs.map(r => transaction.get(r)))]: the reads are issued in
    array order and the snapshots collected in the same order. *)
Fixpoint get_all_from (refs : list DocRef) (acc : list (option DocData))
  : Tx (list (option DocData)) :=
  match refs with
  | [] => Ret acc
  | r :: rest => TxGet r (λ d, get_all_from rest (acc ++ [d]))
  end.
Definition get_all (refs : list DocRef) : Tx (list (option DocData)) :=
  get_all_from refs [].

(** [array.forEach((x, index) => ...)], from a starting index. *)
Fixpoint for_each_from {A : Type} (f : A → nat → Tx unit) (i : nat) (l : list A)
  : Tx unit :=
  match l with
  | [] => Ret tt
  | x :: rest => do! f x i in for_each_from f (S i) rest
  end.
Definition for_each {A : Type} (f : A → nat → Tx unit) (l : list A) : Tx unit :=
  for_each_from f 0 l.

Definition exists_ (snap : option DocData) : bool :=
  match snap with Some _ => true | None => false end.

Definition categoryRef (category : string) : DocRef := ("categories", category).

(** The object literal [listingData] of the source, with the conditional
    spread of [imagePath]. *)
Definition listingData (l : ListingInput) (id : ListingId)
    (uploadUrl : option string) : DocData :=
  let base : DocData :=
    <["listingId" := VStr id]>
    (<["sellerId" := VStr (sellerId l)]>
    (<["title" := VStr (title l)]>
    (<["price" := VNum (price l)]>
    (<["datePosted" := VDate (datePosted l)]>
    (<["description" := VStr (description l)]>
    (<["categories" := VArr (categories l)]>
    (<["isListingActive" := VBool (isListingActive l)]> ∅))))))) in
  match uploadUrl with
  | Some url => if truthy url then <["imagePath" := VStr url]> base else base
  | None => base
  end.

Definition incrementOne : list (string * FieldValue) :=
  [("countActiveListings", FIncrement 1)].
Definition countOne : DocData := {["countActiveListings" := VNum 1]}.

(** The per-category callback of the final [forEach]. *)
Definition categoryWrite (categoryRefs : list DocRef)
    (categoryDoc : option DocData) (index : nat) : Tx unit :=
  match categoryRefs !! index with
  | Some ref =>
      if exists_ categoryDoc then tx_update ref incrementOne
      else tx_set ref countOne
  | None => Throw TypeError
  end.

(** The callback passed to [runTransaction] by [uploadListing]. *)
Definition uploadListing_body (l : ListingInput) : Tx unit :=
  let! documentRef := new_doc "listings" in
  let! uploadUrl :=
    match image l with
    | Some img =>
        if truthy img
        then (let! url := uploadImageAsync img documentRef.2 in Ret (Some url))
        else Ret None
    | None => Ret None
    end in
  let categoryRefs := map categoryRef (categories l) in
  let! categoryDocs := get_all categoryRefs in
  do! tx_set documentRef (listingData l documentRef.2 uploadUrl) in
  for_each (categoryWrite categoryRefs) categoryDocs.


(** ** The document store

    The store is the Firestore client, which is not part of this
    repository.  Every stored document carries the commit time of its last
    write.  A transaction attempt records the version of each document it
    reads, buffers its writes, and commits atomically only if every
    document it read still has the version it saw; otherwise the callback
    is run again, up to [maxAttempts] attempts in all. *)

Inductive Write : Type :=
  | WSet (r : DocRef) (d : DocData)
  | WUpdate (r : DocRef) (u : list (string * FieldValue)).

#[global] Instance Write_eq_dec : EqDecision Write.
Proof. solve_decision. Defined.

Definition writeRef (w : Write) : DocRef :=
  match w with WSet r _ => r | WUpdate r _ => r end.

(** One field of an [update]: a literal overwrites; [increment(n)] adds to a
    numeric field and sets any other (or missing) field to [n]. *)
Definition apply_field (d : DocData) (fu : string * FieldValue) : DocData :=
  match fu.2 with
  | FLit v => <[fu.1 := v]> d
  | FIncrement n =>
      match d !! fu.1 with
      | Some (VNum m) => <[fu.1 := VNum (m + n)]> d
      | _ => <[fu.1 := VNum n]> d
      end
  end.

Definition apply_update (u : list (string * FieldValue)) (d : DocData) : DocData :=
  foldl apply_field d u.

Abbreviation Docs := (gmap (string * string) (nat * gmap string Value)).

(** Modelled from the spec: the store's writes, absent from the sources.
    [set] without merge replaces the document; [update] needs the document
    to exist and applies its field transforms. *)
Definition apply_write (t : nat) (m : Docs) (w : Write) : option Docs :=
  match w with
  | WSet r d => Some (<[r := (t, d)]> m)
  | WUpdate r u =>
      match m !! r with
      | Some (_, d) => Some (<[r := (t, apply_update u d)]> m)
      | None => None
      end
  end.

Fixpoint apply_writes (t : nat) (ws : list Write) (m : Docs) : option Docs :=
  match ws with
  | [] => Some m
  | w :: rest =>
      match apply_write t m w with
      | Some m' => apply_writes t rest m'
      | None => None
      end
  end.

Record World : Type := mkWorld {
  w_docs : Docs;
  w_clock : nat;
  w_draws : nat
}.

Definition version (m : Docs) (r : DocRef) : option nat := fst <$> m !! r.
Definition snapshot (m : Docs) (r : DocRef) : option DocData := snd <$> m !! r.

(** The value of [countActiveListings] of a category aggregate. *)
Definition countActiveListings (m : Docs) (category : string) : option Value :=
  snapshot m (categoryRef category) ≫= λ d, d !! "countActiveListings".

(** Modelled from the spec: the store's conflict detection, absent from the
    sources.  A read set is still valid when every document read has the
    version (or the absence) that was seen. *)
Definition validate (m : Docs) (reads : list (DocRef * option nat)) : bool :=
  forallb (λ rv, bool_decide (version m rv.1 = rv.2)) reads.

(** What a client of the store can be seen to do. *)
Inductive Event : Type :=
  | EvAttempt (n : nat)
  | EvNewDoc (r : DocRef)
  | EvUpload (img owner : string) (res : option string)
  | EvGet (r : DocRef) (found : bool)
  | EvSet (r : DocRef) (d : DocData)
  | EvUpdate (r : DocRef) (u : list (string * FieldValue))
  | EvCommit (ok : bool).

#[global] Instance Event_eq_dec : EqDecision Event.
Proof. solve_decision. Defined.

Definition is_write_event (e : Event) : bool :=
  match e with EvSet _ _ | EvUpdate _ _ => true | _ => false end.
Definition is_get_event (e : Event) : bool :=
  match e with EvGet _ _ => true | _ => false end.
Definition is_newdoc_event (e : Event) : bool :=
  match e with EvNewDoc _ => true | _ => false end.
Definition is_upload_event (e : Event) : bool :=
  match e with EvUpload _ _ _ => true | _ => false end.
Definition is_attempt_event (e : Event) : bool :=
  match e with EvAttempt _ => true | _ => false end.
Definition is_commit_event (e : Event) : bool :=
  match e with EvCommit _ => true | _ => false end.

(** One call of [runTransaction(firestore, updateFunction)] in flight. *)
Record Client : Type := mkClient {
  c_update : Tx unit;
  c_prog : Tx unit;
  c_reads : list (DocRef * option nat);
  c_writes : list Write;
  c_attempt : nat;
  c_trace : list Event;
  c_result : option (Promise unit)
}.

(** Modelled from the spec: [runTransaction] of the store client, absent
    from the sources.  The first attempt begins with the call. *)
Definition runTransaction (updateFunction : Tx unit) : Client :=
  {| c_update := updateFunction; c_prog := updateFunction;
     c_reads := []; c_writes := []; c_attempt := 1;
     c_trace := [EvAttempt 1]; c_result := None |}.

Section Semantics.

(** Modelled from the spec: the client-side generator of automatic
    document ids ([doc(collectionRef)]), by draw. *)
Variable gen_id : nat → string.
(** Modelled from the spec: the asset uploader ([uploadImageAsync] of
    [src/firebase/storage], absent): it returns a durable reference URL
    or fails. *)
Variable upload : string → string → option string.
(** Modelled from the spec: the store's bound on attempts per
    transaction. *)
Variable maxAttempts : nat.

Definition advance (c : Client) (p : Tx unit) (evs : list Event) : Client :=
  {| c_update := c_update c; c_prog := p; c_reads := c_reads c;
     c_writes := c_writes c; c_attempt := c_attempt c;
     c_trace := c_trace c ++ evs; c_result := c_result c |}.

Definition settle (c : Client) (r : Promise unit) (evs : list Event) : Client :=
  {| c_update := c_update c; c_prog := c_prog c; c_reads := c_reads c;
     c_writes := c_writes c; c_attempt := c_attempt c;
     c_trace := c_trace c ++ evs; c_result := Some r |}.

(** Modelled from the spec: a refused commit runs the whole callback
    again, with an empty read set and no buffered write. *)
Definition restart (c : Client) : Client :=
  {| c_update := c_update c; c_prog := c_update c; c_reads := [];
     c_writes := []; c_attempt := S (c_attempt c);
     c_trace := c_trace c ++ [EvCommit false; EvAttempt (S (c_attempt c))];
     c_result := None |}.

(** Modelled from the spec: the commit of an attempt.  With a valid read
    set the buffered writes are applied together, stamped with the next
    commit time; otherwise the attempt is refused and the callback retried
    while attempts remain. *)
Definition commit (w : World) (c : Client) : World * Client :=
  if validate (w_docs w) (c_reads c) then
    match apply_writes (S (w_clock w)) (c_writes c) (w_docs w) with
    | Some m' =>
        (mkWorld m' (S (w_clock w)) (w_draws w),
         settle c (Resolved tt) [EvCommit true])
    | None => (w, settle c (Rejected NotFound) [EvCommit false])
    end
  else if (c_attempt c <? maxAttempts)%nat then (w, restart c)
  else (w, settle c (Rejected Aborted) [EvCommit false]).

(** Modelled from the spec: one interaction of a transaction in flight
    with its collaborators.  A read is answered from the committed
    documents and recorded; a read after a write is refused; writes are
    buffered; an error thrown by the callback rejects the promise without
    a commit. *)
Definition client_step (w : World) (c : Client) : World * Client :=
  match c_result c with
  | Some _ => (w, c)
  | None =>
      match c_prog c with
      | Ret _ => commit w c
      | Throw e => (w, settle c (Rejected e) [])
      | NewDoc coll k =>
          let r := (coll, gen_id (w_draws w)) in
          (mkWorld (w_docs w) (w_clock w) (S (w_draws w)),
           advance c (k r) [EvNewDoc r])
      | UploadImage img owner k =>
          match upload img owner with
          | Some url => (w, advance c (k url) [EvUpload img owner (Some url)])
          | None =>
              (w, advance c (Throw AssetUploadError) [EvUpload img owner None])
          end
      | TxGet r k =>
          match c_writes c with
          | [] =>
              let c' := advance c (k (snapshot (w_docs w) r))
                          [EvGet r (exists_ (snapshot (w_docs w) r))] in
              (w, {| c_update := c_update c'; c_prog := c_prog c';
                     c_reads := c_reads c ++ [(r, version (w_docs w) r)];
                     c_writes := c_writes c'; c_attempt := c_attempt c';
                     c_trace := c_trace c'; c_result := c_result c' |})
          | _ :: _ => (w, advance c (Throw ReadAfterWrite) [])
          end
      | TxSet r d k =>
          let c' := advance c k [EvSet r d] in
          (w, {| c_update := c_update c'; c_prog := c_prog c';
                 c_reads := c_reads c';
                 c_writes := c_writes c ++ [WSet r d];
                 c_attempt := c_attempt c';
                 c_trace := c_trace c'; c_result := c_result c' |})
      | TxUpdate r u k =>
          let c' := advance c k [EvUpdate r u] in
          (w, {| c_update := c_update c'; c_prog := c_prog c';
                 c_reads := c_reads c';
                 c_writes := c_writes c ++ [WUpdate r u];
                 c_attempt := c_attempt c';
                 c_trace := c_trace c'; c_result := c_result c' |})
      end
  end.

(** A system: the store and the publications in flight.  A schedule names,
    step by step, which client interacts next, or a commit made by some
    other party. *)
Record Sys : Type := mkSys { world : World; clients : list Client }.

Inductive Label : Type :=
  | LClient (i : nat)
  | LEnv (ws : list Write).

(** Modelled from the spec: a commit by another party. *)
Definition env_commit (w : World) (ws : list Write) : World :=
  match apply_writes (S (w_clock w)) ws (w_docs w) with
  | Some m' => mkWorld m' (S (w_clock w)) (w_draws w)
  | None => w
  end.

Definition sys_step (s : Sys) (lbl : Label) : Sys :=
  match lbl with
  | LClient i =>
      match clients s !! i with
      | Some c =>
          let '(w', c') := client_step (world s) c in
          mkSys w' (<[i := c']> (clients s))
      | None => s
      end
  | LEnv ws => mkSys (env_commit (world s) ws) (clients s)
  end.

Definition exec (sched : list Label) (s : Sys) : Sys :=
  foldl sys_step s sched.

(** A publication running alone: the schedule that only ever steps it. *)
Definition run_alone (n : nat) (w : World) (c : Client) : Sys :=
  exec (replicate n (LClient 0%nat)) (mkSys w [c]).

End Semantics.

(** ** Stages of the callback

    The callback of [uploadListing] cut at its [await] points, so that the
    state of a publication in flight can be named. *)

Definition categoryRefs (l : ListingInput) : list DocRef :=
  map categoryRef (categories l).

Definition body_rest (l : ListingInput) (documentRef : DocRef) : Tx unit :=
  let! uploadUrl :=
    match image l with
    | Some img =>
        if truthy img
        then (let! url := uploadImageAsync img documentRef.2 in Ret (Some url))
        else Ret None
    | None => Ret None
    end in
  let! categoryDocs := get_all (categoryRefs l) in
  do! tx_set documentRef (listingData l documentRef.2 uploadUrl) in
  for_each (categoryWrite (categoryRefs l)) categoryDocs.

Definition after_reads (l : ListingInput) (documentRef : DocRef)
    (uploadUrl : option string) (categoryDocs : list (option DocData)) : Tx unit :=
  do! tx_set documentRef (listingData l documentRef.2 uploadUrl) in
  for_each (categoryWrite (categoryRefs l)) categoryDocs.

Definition stage_reads (l : ListingInput) (documentRef : DocRef)
    (uploadUrl : option string) (acc : list (option DocData))
    (todo : list DocRef) : Tx unit :=
  bind (get_all_from todo acc) (after_reads l documentRef uploadUrl).

Definition stage_writes (l : ListingInput) (i : nat)
    (rest : list (option DocData)) : Tx unit :=
  for_each_from (categoryWrite (categoryRefs l)) i rest.

(** What one [transaction.get] saw: nothing, or a version and the data. *)
Abbreviation Obs := (option (nat * gmap string Value)).

Definition found (o : Obs) : bool :=
  match o with Some _ => true | None => false end.

(** The write the [forEach] callback issues for a category, given what the
    read of its aggregate saw. *)
Definition cat_write (category : string) (o : Obs) : Write :=
  if found o then WUpdate (categoryRef category) incrementOne
  else WSet (categoryRef category) countOne.

Definition cat_writes (l : ListingInput) (obs : list Obs) : list Write :=
  zip_with (λ o category, cat_write category o) obs (categories l).

Definition ev_of_write (w : Write) : Event :=
  match w with WSet r d => EvSet r d | WUpdate r u => EvUpdate r u end.

Definition gets_trace (l : ListingInput) (obs : list Obs) : list Event :=
  zip_with (λ (o : Obs) r, EvGet r (found o)) obs (categoryRefs l).

Definition upload_trace (l : ListingInput) (r : DocRef) (url : option string)
  : list Event :=
  match url with
  | Some u =>
      match image l with
      | Some img => [EvUpload img r.2 (Some u)]
      | None => []
      end
  | None => []
  end.

Inductive Phase : Type :=
  | PhNew
  | PhUpload (r : DocRef) (img : string)
  | PhFailed (r : DocRef) (img : string)
  | PhRead (r : DocRef) (url : option string) (obs : list Obs)
  | PhWrite (r : DocRef) (url : option string) (obs : list Obs) (j : nat).

Definition prog_of (l : ListingInput) (ph : Phase) : Tx unit :=
  match ph with
  | PhNew => uploadListing_body l
  | PhUpload r img =>
      UploadImage img r.2
        (λ url, stage_reads l r (Some url) [] (categoryRefs l))
  | PhFailed _ _ => Throw AssetUploadError
  | PhRead r url obs =>
      stage_reads l r url (map (fmap snd) obs)
        (drop (length obs) (categoryRefs l))
  | PhWrite r url obs j => stage_writes l j (drop j (map (fmap snd) obs))
  end.

Definition reads_of (l : ListingInput) (ph : Phase)
  : list (DocRef * option nat) :=
  match ph with
  | PhRead _ _ obs | PhWrite _ _ obs _ =>
      zip_with (λ (o : Obs) r, (r, fst <$> o)) obs (categoryRefs l)
  | _ => []
  end.

Definition writes_of (l : ListingInput) (ph : Phase) : list Write :=
  match ph with
  | PhWrite r url obs j =>
      WSet r (listingData l r.2 url) :: take j (cat_writes l obs)
  | _ => []
  end.

Definition trace_of (l : ListingInput) (ph : Phase) : list Event :=
  match ph with
  | PhNew => []
  | PhUpload r _ => [EvNewDoc r]
  | PhFailed r img => [EvNewDoc r; EvUpload img r.2 None]
  | PhRead r url obs => EvNewDoc r :: upload_trace l r url ++ gets_trace l obs
  | PhWrite r url obs j =>
      EvNewDoc r :: upload_trace l r url ++ gets_trace l obs
        ++ map ev_of_write (writes_of l ph)
  end.

(** A publication of [l] in its [n]-th attempt, at phase [ph], after the
    events [hist] of its earlier attempts. *)
Definition in_flight (l : ListingInput) (n : nat) (hist : list Event)
    (ph : Phase) : Client :=
  {| c_update := uploadListing_body l; c_prog := prog_of l ph;
     c_reads := reads_of l ph; c_writes := writes_of l ph; c_attempt := n;
     c_trace := hist ++ EvAttempt n :: trace_of l ph; c_result := None |}.

Definition phase_after_new (l : ListingInput) (r : DocRef) : Phase :=
  match image l with
  | Some img => if truthy img then PhUpload r img else PhRead r None []
  | None => PhRead r None []
  end.

(** The image handed to the uploader, if any. *)
Definition asset (l : ListingInput) : option string :=
  match image l with
  | Some img => if truthy img then Some img else None
  | None => None
  end.

Definition url_ok (upload : string → string → option string)
    (l : ListingInput) (r : DocRef) (url : option string) : Prop :=
  match asset l with
  | Some img => is_Some url ∧ upload img r.2 = url
  | None => url = None
  end.

Definition wf_phase (upload : string → string → option string)
    (l : ListingInput) (ph : Phase) : Prop :=
  match ph with
  | PhNew => True
  | PhUpload r img => r.1 = "listings" ∧ asset l = Some img
  | PhFailed r img => asset l = Some img ∧ upload img r.2 = None
  | PhRead r url obs =>
      r.1 = "listings" ∧ url_ok upload l r url ∧
      (length obs ≤ length (categories l))%nat
  | PhWrite r url obs j =>
      r.1 = "listings" ∧ url_ok upload l r url ∧
      length obs = length (categories l) ∧ (j ≤ length (categories l))%nat
  end.

(** The events of the attempts that came before the [n]-th: each began,
    drew one document id, uploaded the asset if there is one, and ended in
    a refused commit; before the first there are none. *)
Definition count_ev (f : Event → bool) (t : list Event) : nat :=
  length (filter (λ e, f e = true) t).

Definition hist_ok (l : ListingInput) (n : nat) (hist : list Event) : Prop :=
  (1 ≤ n)%nat ∧
  count_ev is_attempt_event hist = (n - 1)%nat ∧
  count_ev is_newdoc_event hist = (n - 1)%nat ∧
  count_ev is_upload_event hist =
    match asset l with Some _ => (n - 1)%nat | None => 0%nat end ∧
  count_ev is_commit_event hist = (n - 1)%nat ∧
  (n = 1%nat → hist = []).

(** The store-side effect of [increment(1)] on what a field held. *)
Definition bump (v : option Value) : Value :=
  match v with
  | Some (VNum m) => VNum (m + 1)
  | _ => VNum 1
  end.

Fixpoint bump_n (n : nat) (v : option Value) : option Value :=
  match n with
  | O => v
  | S n' => bump_n n' (Some (bump v))
  end.

(** Number of client interactions of one undisturbed attempt. *)
Definition steps_needed (l : ListingInput) : nat :=
  (1 + match asset l with Some _ => 1 | None => 0 end
   + length (categories l) + 1 + length (categories l) + 1)%nat.

(** What a write does to the document at one reference. *)
Definition write_at (t : nat) (ρ : DocRef) (cur : option (nat * DocData))
    (w : Write) : option (nat * DocData) :=
  if decide (writeRef w = ρ) then
    match w with
    | WSet _ d => Some (t, d)
    | WUpdate _ u =>
        match cur with
        | Some (_, d) => Some (t, apply_update u d)
        | None => None
        end
    end
  else cur.

(** How many times a category is named. *)
Definition occurrences (c : string) (cats : list string) : nat :=
  length (filter (λ x, x = c) cats).

(** The aggregate count after a commit, from the document before it and
    the number of times the category is named. *)
Definition count_after (k : nat) (before : option (nat * DocData))
  : option Value :=
  match before with
  | None => Some (VNum 1)
  | Some (_, d) => bump_n k (d !! "countActiveListings")
  end.

Section Reachable.
Variable upload : string → string → option string.
Variable maxAttempts : nat.

(** The states a publication of [l] can be in. *)
Inductive publishing (l : ListingInput) : Client → Prop :=
  | pub_flight n hist ph :
      wf_phase upload l ph → hist_ok l n hist →
      publishing l (in_flight l n hist ph)
  | pub_resolved n hist r url obs :
      wf_phase upload l (PhWrite r url obs (length (categories l))) →
      hist_ok l n hist →
      publishing l
        (settle (in_flight l n hist (PhWrite r url obs (length (categories l))))
           (Resolved tt) [EvCommit true])
  | pub_upload_failed n hist r img :
      wf_phase upload l (PhFailed r img) → hist_ok l n hist →
      publishing l
        (settle (in_flight l n hist (PhFailed r img))
           (Rejected AssetUploadError) [])
  | pub_aborted n hist r url obs :
      wf_phase upload l (PhWrite r url obs (length (categories l))) →
      hist_ok l n hist → (maxAttempts ≤ n)%nat →
      publishing l
        (settle (in_flight l n hist (PhWrite r url obs (length (categories l))))
           (Rejected Aborted) [EvCommit false]).
End Reachable.

(** What a committed publication did to the documents. *)
Definition commit_effect (l : ListingInput) (r : DocRef) (url : option string)
    (t : nat) (m m' : Docs) : Prop :=
  r.1 = "listings" ∧
  m' !! r = Some (t, listingData l r.2 url) ∧
  (∀ c, c ∈ categories l →
        countActiveListings m' c
        = count_after (occurrences c (categories l)) (m !! categoryRef c)) ∧
  (∀ ρ, ρ ≠ r → ρ ∉ categoryRefs l → m' !! ρ = m !! ρ).

(** A step that leaves the store as it was. *)
Definition quiet_step (w w' : World) (c c' : Client) : Prop :=
  w_docs w' = w_docs w ∧ w_clock w' = w_clock w ∧
  (c_result c = None → c_result c' ≠ Some (Resolved tt)) ∧
  (∀ p, c_result c = Some p → c' = c).

(** The step at which a publication commits. *)
Definition commit_step (l : ListingInput) (w w' : World) (c c' : Client) : Prop :=
  c_result c = None ∧ w_clock w' = S (w_clock w) ∧
  ∃ n hist r url obs,
    length obs = length (categories l) ∧
    c = in_flight l n hist (PhWrite r url obs (length (categories l))) ∧
    c' = settle c (Resolved tt) [EvCommit true] ∧
    commit_effect l r url (S (w_clock w)) (w_docs w) (w_docs w').

(** The promise of the [i]-th publication of a system, once settled. *)
Definition result_of (s : Sys) (i : nat) : option (Promise unit) :=
  clients s !! i ≫= c_result.

(** [uploadListing] hands its callback to [runTransaction] and awaits it. *)
Definition uploadListing (l : ListingInput) : Client :=
  runTransaction (uploadListing_body l).

(** The system in which [uploadListing l] has just been called. *)
Definition publish (l : ListingInput) (w : World) : Sys :=
  mkSys w [uploadListing l].

(** Interactions left in an attempt at a given phase, if its commit is
    accepted. *)
Definition remaining (l : ListingInput) (ph : Phase) : nat :=
  match ph with
  | PhNew => steps_needed l
  | PhUpload _ _ => (steps_needed l - 1)%nat
  | PhFailed _ _ => 1%nat
  | PhRead _ _ obs =>
      (length (categories l) - length obs + 1 + length (categories l) + 1)%nat
  | PhWrite _ _ _ j => (length (categories l) - j + 1)%nat
  end.

(** A bound on the interactions left to a publication that is refused at
    most once. *)
Definition potential (l : ListingInput) (n : nat) (ph : Phase) : nat :=
  (remaining l ph + if decide (n = 1%nat) then steps_needed l else 0)%nat.

Definition settled_flag (s : option bool) : bool :=
  match s with Some _ => true | None => false end.

Section Race.
Variable upload : string → string → option string.

(** One of two publications that name the category [k], against the
    documents [m], [oc] telling whether the other has committed: it is in
    attempt [n] with at most [p] interactions to go, and [st] tells
    whether it has committed and, if so, whether it had found the
    aggregate of [k]. *)
Inductive racing (l : ListingInput) (k : string) (m : Docs) (oc : bool)
  : Client → nat → nat → option bool → Prop :=
  | racing_flight n hist ph :
      wf_phase upload l ph → hist_ok l n hist →
      (n = 1%nat ∨
       (n = 2%nat ∧ oc = true ∧ validate m (reads_of l ph) = true)) →
      (validate m (reads_of l ph) = true ∨ oc = true) →
      racing l k m oc (in_flight l n hist ph) n (potential l n ph) None
  | racing_done n hist r url obs b :
      wf_phase upload l (PhWrite r url obs (length (categories l))) →
      hist_ok l n hist → (n ≤ 2)%nat →
      (∀ i o, categories l !! i = Some k → obs !! i = Some o → found o = b) →
      racing l k m oc
        (settle (in_flight l n hist (PhWrite r url obs (length (categories l))))
           (Resolved tt) [EvCommit true])
        n 0 (Some b).

(** What the store holds for [k], by who has committed. *)
Definition race_store (k : string) (m : Docs) (na nb : nat)
    (sa sb : option bool) : Prop :=
  match sa, sb with
  | None, None => m !! categoryRef k = None
  | Some a, None =>
      a = false ∧ na = 1%nat ∧ countActiveListings m k = Some (VNum 1)
  | None, Some b =>
      b = false ∧ nb = 1%nat ∧ countActiveListings m k = Some (VNum 1)
  | Some a, Some b =>
      a ≠ b ∧ (na + nb ≤ 3)%nat ∧ countActiveListings m k = Some (VNum 2)
  end.

Definition race_inv (lA lB : ListingInput) (k : string) (s : Sys)
    (pa pb : nat) : Prop :=
  ∃ cA cB na nb sa sb,
    clients s = [cA; cB] ∧
    racing lA k (w_docs (world s)) (settled_flag sb) cA na pa sa ∧
    racing lB k (w_docs (world s)) (settled_flag sa) cB nb pb sb ∧
    race_store k (w_docs (world s)) na nb sa sb.
End Race.

(** Two publications called together. *)
Definition publish2 (lA lB : ListingInput) (w : World) : Sys :=
  mkSys w [uploadListing lA; uploadListing lB].

#[global] Instance Label_eq_dec : EqDecision Label.
Proof. solve_decision. Defined.

(** How often a schedule lets the [i]-th publication interact. *)
Definition turns (i : nat) (sched : list Label) : nat :=
  length (filter (λ lbl, lbl = LClient i) sched).


(** ** Read façade *)

(** Modelled from the spec: the store as the façade reaches it, its
    committed documents and the fault, if any, with which the network
    answers. *)
Record Backend : Type := mkBackend {
  b_docs : Docs;
  b_fault : option Error
}.

(** Modelled from the spec: the store's point read [getDoc], which
    rejects when the store cannot be reached. *)
Definition getDoc (b : Backend) (r : DocRef) : Promise (option DocData) :=
  match b_fault b with
  | Some e => Rejected e
  | None => Resolved (snapshot (b_docs b) r)
  end.

(** [getDocument(path)]: the data, or [null] when there is no document. *)
Definition getDocument (b : Backend) (path : DocRef)
  : Promise (option DocData) :=
  match getDoc b path with
  | Resolved documentSnapshot =>
      if exists_ documentSnapshot then Resolved documentSnapshot
      else Resolved None
  | Rejected e => Rejected e
  end.

(** [getUserProfile(userId)]: the same lookup in [users], inside a
    [try]/[catch] that logs the error and returns [null]. *)
Definition getUserProfile (b : Backend) (userId : UserId)
  : Promise (option DocData) :=
  match getDoc b ("users", userId) with
  | Resolved userSnap =>
      if exists_ userSnap then Resolved userSnap else Resolved None
  | Rejected _ => Resolved None
  end.

(** Modelled from the spec: the store's query filter
    [where(field, "!=", value)], which keeps the documents in which the
    field is present, not null, and differs from the value. *)
Definition where_ne (field : string) (v : Value) (d : DocData) : bool :=
  match d !! field with
  | Some VNull | None => false
  | Some x => bool_decide (x ≠ v)
  end.

(** Modelled from the spec: the documents of a collection as a query
    snapshot lists them, as (id, data) pairs. *)
Definition collection_docs (m : Docs) (coll : string)
  : list (string * DocData) :=
  omap (λ kv : (string * string) * (nat * DocData),
          if decide (kv.1.1 = coll) then Some (kv.1.2, kv.2.2) else None)
       (map_to_list m).

Definition query_docs (m : Docs) (coll : string) (p : DocData → bool)
  : list (string * DocData) :=
  filter (λ doc, p doc.2 = true) (collection_docs m coll).

(** [docs.reduce((acc, doc) => ({...acc, [doc.id]: doc.data()}), {})] *)
Definition reduce_docs (docs : list (string * DocData))
  : gmap string DocData :=
  foldl (λ acc doc, <[doc.1 := doc.2]> acc) ∅ docs.

Definition getAllListings (b : Backend) (id : UserId)
  : Promise (gmap string DocData) :=
  match b_fault b with
  | Some e => Rejected e
  | None =>
      Resolved (reduce_docs
                  (query_docs (b_docs b) "listings"
                     (where_ne "sellerId" (VStr id))))
  end.

(** [createPostListingListener]: the callback registered with
    [onSnapshot] hands [setListings] one mapping per query snapshot. *)
Definition listener_callback (querySnapshot : list (string * DocData))
  : gmap string DocData :=
  reduce_docs querySnapshot.

(** The mappings handed to [setListings] as the store passes through the
    given states. *)
Definition createPostListingListener (userId : UserId)
    (states : list Docs) : list (gmap string DocData) :=
  map (λ m, listener_callback
              (query_docs m "listings" (where_ne "sellerId" (VStr userId))))
      states.

(** ** Sample data *)

Definition sample_gen_id (n : nat) : string :=
  String.concat EmptyString (replicate n "x") +:+ "id".

Definition sample_upload (img owner : string) : option string :=
  if decide (img = "broken.png") then None else Some ("gs://" +:+ owner).

Definition bike : ListingInput :=
  mkListingInput "u1" "Bike" 150 None 0 "a bike" ["BIKE"] true.
Definition ebike : ListingInput :=
  mkListingInput "u2" "E-bike" 900 (Some "ebike.png") 1 "an e-bike"
    ["BIKE"; "ELEC"] true.
Definition twice : ListingInput :=
  mkListingInput "u3" "Tandem" 300 None 2 "two seats" ["BIKE"; "BIKE"] true.
Definition invalid_listing : ListingInput :=
  mkListingInput EmptyString EmptyString 0 None 0 EmptyString [] true.

Definition empty_world : World := mkWorld ∅ 0 0.

(** The store after [bike] was published alone into an empty store. *)
Definition world_with_bike : World :=
  world (run_alone sample_gen_id sample_upload 5 (steps_needed bike)
           empty_world (uploadListing bike)).

(** [ebike] published while another party creates the ELEC aggregate
    between its reads and its commit. *)
Definition retry_schedule : list Label :=
  replicate 4 (LClient 0%nat)
  ++ LEnv [WSet (categoryRef "ELEC") countOne]
  :: replicate 14 (LClient 0%nat).

(** [bike] and [ebike] taking turns, then [ebike] finishing alone. *)
Definition race_schedule : list nat :=
  concat (replicate 10 [0%nat; 1%nat]) ++ replicate 6 1%nat.

Definition offline : Backend := mkBackend ∅ (Some Unavailable).
Definition online_empty : Backend := mkBackend ∅ None.

(** ** Further code of [src/firebase/db.ts], [src/types] and the detail screen *)

(** Modelled from the spec: the store's point write
    [setDoc(ref, data, {merge})], stamped with the commit time [t].  With
    [merge] the fields given overwrite those stored and the others are
    kept; without it the document is replaced.  A store that cannot be
    reached rejects and keeps its documents. *)
Definition setDoc (b : Backend) (t : nat) (r : DocRef) (data : DocData)
    (merge : bool) : Promise unit * Backend :=
  match b_fault b with
  | Some e => (Rejected e, b)
  | None =>
      let old : DocData :=
        if merge then default ∅ (snapshot (b_docs b) r) else ∅ in
      (Resolved tt, mkBackend (<[r := (t, data ∪ old)]> (b_docs b)) None)
  end.

(** [setDocument(path, data, merge = true)]: the call of [setDoc] passes
    the literal [{ merge: true }], whatever [merge] is. *)
Definition setDocument (b : Backend) (t : nat) (path : DocRef)
    (data : DocData) (merge : bool) : Promise unit * Backend :=
  setDoc b t path data true.

(** The enumerations of category codes. *)
Inductive CategoryType : Type :=
  | VEHICLES | PROPERTY_RENTALS | APPAREL | ELECTRONICS | ENTERTAINMENT
  | FAMILY | FREE_STUFF | GARDEN_OUTDOOR | HOBBIES | HOME_GOODS
  | MUSICAL_INSTRUMENTS | OFFICE_SUPPLIES | PET_SUPPLIES | SPORTING_GOODS
  | TOYS_GAMES | SERVICE | BIKES.

Definition CategoryType_code (c : CategoryType) : string :=
  match c with
  | VEHICLES => "VEH"
  | PROPERTY_RENTALS => "PROP_RENT"
  | APPAREL => "APRL"
  | ELECTRONICS => "ELECT"
  | ENTERTAINMENT => "ENT"
  | FAMILY => "FAM"
  | FREE_STUFF => "FREE"
  | GARDEN_OUTDOOR => "GARD_OUT"
  | HOBBIES => "HOB"
  | HOME_GOODS => "HOME"
  | MUSICAL_INSTRUMENTS => "MI"
  | OFFICE_SUPPLIES => "OFF_SUP"
  | PET_SUPPLIES => "PET_SUP"
  | SPORTING_GOODS => "SPORT"
  | TOYS_GAMES => "TOY"
  | SERVICE => "SERV"
  | BIKES => "BIKE"
  end.

Inductive BikeCategoryType : Type :=
  | ROAD | SPORT | COMMUTER_URBAN | COMFORT | FITNESS | HYBRID | ELECTRIC.

Definition BikeCategoryType_code (c : BikeCategoryType) : string :=
  match c with
  | ROAD => "ROAD"
  | SPORT => "SPRT"
  | COMMUTER_URBAN => "COMU"
  | COMFORT => "COMF"
  | FITNESS => "FITN"
  | HYBRID => "HYBR"
  | ELECTRIC => "ELEC"
  end.

(** The code of a member of either enumeration. *)
Definition category_code (c : CategoryType + BikeCategoryType) : string :=
  match c with
  | inl c => CategoryType_code c
  | inr c => BikeCategoryType_code c
  end.

(** The calls the detail screen makes on its state. *)
Inductive ScreenCall : Type :=
  | SetTimeAgo (s : string)
  | SetListing (listing : DocData).

Section DetailScreen.

(** [getTimeAgo] of [src/app/components], absent from the sources: what it
    makes of the [datePosted] field, if the listing has one. *)
Variable getTimeAgo : option Value → string.

(** [fetchListing] of the detail screen, for one value of [itemId]: the
    promise of the [async] function and the state calls it made.  Reading
    [datePosted] of [null] throws. *)
Definition fetchListing (b : Backend) (itemId : string)
  : Promise unit * list ScreenCall :=
  if truthy itemId then
    match getDocument b ("listings", itemId) with
    | Resolved (Some listing) =>
        (Resolved tt,
         [SetTimeAgo (getTimeAgo (listing !! "datePosted"));
          SetListing listing])
    | Resolved None => (Rejected TypeError, [])
    | Rejected e => (Rejected e, [])
    end
  else (Resolved tt, []).

End DetailScreen.

Section Sequence.

Variable gen_id : nat → string.
Variable upload : string → string → option string.
Variable maxAttempts : nat.

(** Calls of [uploadListing] one after the other, each awaited before the
    next and nobody else writing. *)
Fixpoint publish_all (ls : list ListingInput) (w : World) : World :=
  match ls with
  | [] => w
  | l :: rest =>
      publish_all rest
        (world (run_alone gen_id upload maxAttempts (steps_needed l) w
                  (uploadListing l)))
  end.

End Sequence.

(** How many of the listings name a category. *)
Definition naming (c : string) (ls : list ListingInput) : nat :=
  length (filter (λ l, c ∈ categories l) ls).

(** The [imagePath] a listing is stored with: the URL the uploader gave for
    its asset, when there is an asset and the URL is not empty. *)
Definition stored_imagePath (upload : string → string → option string)
    (l : ListingInput) (id : ListingId) : option string :=
  asset l ≫= λ img, upload img id ≫= λ u, if truthy u then Some u else None.

(** [bike] published while another party rewrites BIKE during each of its
    two attempts. *)
Definition starving_schedule : list Label :=
  replicate 2 (LClient 0%nat)
  ++ LEnv [WSet (categoryRef "BIKE") countOne]
  :: replicate 5 (LClient 0%nat)
  ++ LEnv [WSet (categoryRef "BIKE") countOne]
  :: replicate 5 (LClient 0%nat).

Definition user_doc : DocData :=
  <["fullName" := VStr "Ada"]> (<["email" := VStr "ada@example.org"]> ∅).

Definition store_with_user : Backend :=
  mkBackend (<[("users", "u1") := (1%nat, user_doc)]> ∅) None.

Definition sold_aggregate : DocData :=
  <["countActiveListings" := VNum 4]> (<["countSoldListings" := VNum 7]> ∅).

Definition world_with_sold : World :=
  mkWorld (<[categoryRef "BIKE" := (1%nat, sold_aggregate)]> ∅) 1 0.


(** * Theorems *)

Section Publication.
Variable gen_id : nat → string.
Variable upload : string → string → option string.
Variable maxAttempts : nat.

#[local] Abbreviation client_step := (client_step gen_id upload maxAttempts).
#[local] Abbreviation commit := (commit maxAttempts).
#[local] Abbreviation sys_step := (sys_step gen_id upload maxAttempts).
#[local] Abbreviation exec := (exec gen_id upload maxAttempts).
#[local] Abbreviation run_alone := (run_alone gen_id upload maxAttempts).
#[local] Abbreviation publishing := (publishing upload maxAttempts).
#[local] Abbreviation url_ok := (url_ok upload).
#[local] Abbreviation wf_phase := (wf_phase upload).

(** *** The callback, stage by stage *)

Lemma zip_with_snoc {A B C : Type} (f : A → B → C) (l1 : list A) (l2 : list B) x y :
l2 !! length l1 = Some y →
zip_with f (l1 ++ [x]) l2 = zip_with f l1 l2 ++ [f x y].
Proof.
revert l2. induction l1 as [|a l1 IH]; intros [|b l2] H; simpl in *.
- done.
- by inversion H; subst.
- done.
- f_equal. by apply IH.
Qed.

Lemma uploadListing_body_unfold l :
uploadListing_body l = NewDoc "listings" (body_rest l).
Proof. reflexivity. Qed.

Lemma body_rest_phase l r :
body_rest l r = prog_of l (phase_after_new l r).
Proof.
unfold body_rest, phase_after_new.
destruct (image l) as [img|]; [destruct (truthy img)|]; reflexivity.
Qed.

Lemma stage_reads_cons l r url acc x todo :
stage_reads l r url acc (x :: todo)
= TxGet x (λ d, stage_reads l r url (acc ++ [d]) todo).
Proof. reflexivity. Qed.

Lemma stage_reads_nil l r url acc :
stage_reads l r url acc []
= TxSet r (listingData l r.2 url) (stage_writes l 0 acc).
Proof. reflexivity. Qed.

Lemma stage_writes_cons l i d rest ref :
categoryRefs l !! i = Some ref →
stage_writes l i (d :: rest)
= if exists_ d then TxUpdate ref incrementOne (stage_writes l (S i) rest)
  else TxSet ref countOne (stage_writes l (S i) rest).
Proof.
intros H. unfold stage_writes. simpl. unfold categoryWrite. rewrite H.
by destruct (exists_ d).
Qed.


Lemma step_new l n hist w :
  client_step w (in_flight l n hist PhNew)
  = (mkWorld (w_docs w) (w_clock w) (S (w_draws w)),
     in_flight l n hist (phase_after_new l ("listings", gen_id (w_draws w)))).
Proof.
  unfold client_step, in_flight, phase_after_new, advance.
  cbn [c_result c_prog c_update c_reads c_writes c_attempt c_trace prog_of].
  rewrite uploadListing_body_unfold at 1. rewrite body_rest_phase.
  unfold phase_after_new.
  destruct (image l) as [img|] eqn:E; [destruct (truthy img) eqn:T|];
    cbn; rewrite <- ?app_assoc, ?app_nil_r; reflexivity.
Qed.

Lemma asset_image l img :
  asset l = Some img → image l = Some img ∧ truthy img = true.
Proof.
  unfold asset. destruct (image l) as [i|]; [|done].
  destruct (truthy i) eqn:T; [|done]. by intros [= ->].
Qed.

Lemma step_upload_ok l n hist w r img u :
  asset l = Some img → upload img r.2 = Some u →
  client_step w (in_flight l n hist (PhUpload r img))
  = (w, in_flight l n hist (PhRead r (Some u) [])).
Proof.
  intros [Hi _]%asset_image Hu.
  unfold client_step, in_flight, advance, upload_trace. cbn. rewrite Hu, Hi. cbn.
  rewrite <- ?app_assoc, ?app_nil_r. reflexivity.
Qed.

Lemma step_upload_fail l n hist w r img :
  upload img r.2 = None →
  client_step w (in_flight l n hist (PhUpload r img))
  = (w, in_flight l n hist (PhFailed r img)).
Proof.
  intros Hu. unfold client_step, in_flight, advance. cbn. rewrite Hu. cbn.
  rewrite <- ?app_assoc. reflexivity.
Qed.

Lemma step_failed l n hist w r img :
  client_step w (in_flight l n hist (PhFailed r img))
  = (w, settle (in_flight l n hist (PhFailed r img))
          (Rejected AssetUploadError) []).
Proof. reflexivity. Qed.

Lemma step_read l n hist w r url obs x :
  categoryRefs l !! length obs = Some x →
  client_step w (in_flight l n hist (PhRead r url obs))
  = (w, in_flight l n hist (PhRead r url (obs ++ [w_docs w !! x]))).
Proof.
  intros Hx. unfold client_step, in_flight, advance.
  cbn [c_result c_prog c_update c_reads c_writes c_attempt c_trace prog_of
       reads_of writes_of trace_of].
  rewrite (drop_S _ _ _ Hx), stage_reads_cons.
  rewrite length_app, Nat.add_1_r, fmap_app. cbn [fmap list_fmap].
  unfold gets_trace. rewrite !(zip_with_snoc _ _ _ _ _ Hx).
  unfold snapshot, version.
  destruct (w_docs w !! x) as [[v d]|]; cbn; rewrite <- ?app_assoc; cbn;
    rewrite <- ?app_assoc; reflexivity.
Qed.

Lemma step_read_done l n hist w r url obs :
  length obs = length (categories l) →
  client_step w (in_flight l n hist (PhRead r url obs))
  = (w, in_flight l n hist (PhWrite r url obs 0)).
Proof.
  intros Hlen. unfold client_step, in_flight, advance.
  cbn [c_result c_prog c_update c_reads c_writes c_attempt c_trace prog_of
       reads_of writes_of trace_of].
  rewrite drop_ge by (unfold categoryRefs; rewrite length_map; lia).
  rewrite stage_reads_nil. cbn. rewrite <- ?app_assoc. cbn.
  rewrite <- ?app_assoc. reflexivity.
Qed.

Lemma cat_writes_lookup l obs j c o :
  categories l !! j = Some c → obs !! j = Some o →
  cat_writes l obs !! j = Some (cat_write c o).
Proof.
  intros Hc Ho. unfold cat_writes. rewrite lookup_zip_with, Ho. cbn.
  by rewrite Hc.
Qed.

Lemma step_write l n hist w r url obs j c o :
  categories l !! j = Some c → obs !! j = Some o →
  client_step w (in_flight l n hist (PhWrite r url obs j))
  = (w, in_flight l n hist (PhWrite r url obs (S j))).
Proof.
  intros Hc Ho. unfold client_step, in_flight, advance.
  cbn [c_result c_prog c_update c_reads c_writes c_attempt c_trace prog_of
       reads_of writes_of trace_of].
  assert (Hd : map (fmap snd) obs !! j = Some (snd <$> o))
    by (by rewrite list_lookup_fmap, Ho).
  assert (Hr : categoryRefs l !! j = Some (categoryRef c))
    by (unfold categoryRefs; by rewrite list_lookup_fmap, Hc).
  rewrite (drop_S _ _ _ Hd), (stage_writes_cons _ _ _ _ _ Hr).
  rewrite (take_S_r _ _ _ (cat_writes_lookup _ _ _ _ _ Hc Ho)).
  unfold cat_write. destruct o as [[v d]|]; cbn;
    rewrite ?map_app, <- ?app_assoc; cbn; rewrite <- ?app_assoc; reflexivity.
Qed.

Lemma step_commit l n hist w r url obs :
  length obs = length (categories l) →
  client_step w (in_flight l n hist (PhWrite r url obs (length (categories l))))
  = commit w (in_flight l n hist (PhWrite r url obs (length (categories l)))).
Proof.
  intros Hlen. unfold client_step, in_flight.
  cbn [c_result c_prog c_update c_reads c_writes c_attempt c_trace prog_of].
  rewrite drop_ge by (rewrite length_map; lia). reflexivity.
Qed.




(** *** The store: validation and writes *)

Lemma validate_spec m reads :
  validate m reads = true ↔ ∀ rv, rv ∈ reads → version m rv.1 = rv.2.
Proof.
  unfold validate. induction reads as [|rv reads IH]; cbn.
  - split; [|done]. intros _ rv H. by apply elem_of_nil in H.
  - rewrite andb_true_iff, IH, bool_decide_eq_true. split.
    + intros [H1 H2] x [->|Hx]%elem_of_cons; auto.
    + intros H. split; [|intros x Hx]; apply H; set_solver.
Qed.

Lemma validate_nil m : validate m [] = true.
Proof. reflexivity. Qed.

Lemma validate_snoc m reads r :
  validate m (reads ++ [(r, version m r)]) = validate m reads.
Proof.
  unfold validate. rewrite forallb_app. cbn.
  rewrite bool_decide_eq_true_2 by done. by rewrite !andb_true_r.
Qed.

Lemma apply_write_mono t m w m' ρ :
  apply_write t m w = Some m' → is_Some (m !! ρ) → is_Some (m' !! ρ).
Proof.
  destruct w as [r d|r u]; cbn.
  - intros [= <-] H. destruct (decide (r = ρ)) as [->|Hne].
    + rewrite lookup_insert_eq. eauto.
    + by rewrite lookup_insert_ne.
  - destruct (m !! r) as [[v d]|] eqn:E; [|done].
    intros [= <-] H. destruct (decide (r = ρ)) as [->|Hne].
    + rewrite lookup_insert_eq. eauto.
    + by rewrite lookup_insert_ne.
Qed.

Lemma apply_writes_ok t ws m :
  (∀ r u, WUpdate r u ∈ ws → is_Some (m !! r)) →
  is_Some (apply_writes t ws m).
Proof.
  revert m. induction ws as [|w ws IH]; intros m H; cbn; [eauto|].
  assert (Hw : is_Some (apply_write t m w)).
  { destruct w as [r d|r u]; cbn; [eauto|].
    destruct (H r u) as [[v d] ->]; [set_solver|eauto]. }
  destruct Hw as [m' Hm']. rewrite Hm'. apply IH.
  intros r u Hin. eapply apply_write_mono; [done|]. apply (H r u). set_solver.
Qed.

Lemma apply_write_lookup t m w m' ρ :
  apply_write t m w = Some m' → m' !! ρ = write_at t ρ (m !! ρ) w.
Proof.
  unfold write_at. destruct w as [r d|r u]; cbn.
  - intros [= <-]. case_decide as Hd; subst.
    + by rewrite lookup_insert_eq.
    + by rewrite lookup_insert_ne.
  - destruct (m !! r) as [[v d]|] eqn:E; [|done]. intros [= <-].
    case_decide as Hd; subst.
    + by rewrite lookup_insert_eq, E.
    + by rewrite lookup_insert_ne.
Qed.

Lemma apply_writes_lookup t ws m m' ρ :
  apply_writes t ws m = Some m' →
  m' !! ρ = foldl (write_at t ρ) (m !! ρ) ws.
Proof.
  revert m. induction ws as [|w ws IH]; intros m; cbn.
  - by intros [= <-].
  - destruct (apply_write t m w) as [m1|] eqn:E; [|done].
    intros H. rewrite (IH _ H). by rewrite (apply_write_lookup _ _ _ _ _ E).
Qed.

Lemma foldl_write_at_other t ρ cur ws :
  (∀ w, w ∈ ws → writeRef w ≠ ρ) → foldl (write_at t ρ) cur ws = cur.
Proof.
  revert cur. induction ws as [|w ws IH]; intros cur H; cbn; [done|].
  rewrite IH by set_solver. unfold write_at.
  rewrite decide_False; [done|]. apply H. set_solver.
Qed.

Lemma categoryRef_inj c1 c2 : categoryRef c1 = categoryRef c2 → c1 = c2.
Proof. by intros [= ->]. Qed.

Lemma writeRef_cat_write c o : writeRef (cat_write c o) = categoryRef c.
Proof. unfold cat_write. by destruct (found o). Qed.

Lemma write_at_cat_write t c cur c' o :
  write_at t (categoryRef c) cur (cat_write c' o)
  = if decide (c' = c) then
      if found o then
        match cur with
        | Some (_, d) => Some (t, apply_update incrementOne d)
        | None => None
        end
      else Some (t, countOne)
    else cur.
Proof.
  unfold write_at. rewrite writeRef_cat_write.
  destruct (decide (c' = c)) as [->|Hne].
  - rewrite decide_True by done. unfold cat_write. by destruct (found o).
  - rewrite decide_False; [done|]. intros E. by apply categoryRef_inj in E.
Qed.

Lemma occurrences_cons c c' cats :
  occurrences c (c' :: cats)
  = if decide (c' = c) then S (occurrences c cats) else occurrences c cats.
Proof. unfold occurrences. rewrite filter_cons. by case_decide. Qed.

(** The category writes seen from one aggregate that the reads found
    absent: any occurrence creates it with count one. *)
Lemma foldl_cat_writes_absent t c cats obs cur :
  length obs = length cats →
  (∀ i o, cats !! i = Some c → obs !! i = Some o → found o = false) →
  foldl (write_at t (categoryRef c)) cur
    (zip_with (λ o category, cat_write category o) obs cats)
  = match occurrences c cats with
    | O => cur
    | S _ => Some (t, countOne)
    end.
Proof.
  revert obs cur. induction cats as [|c' cats IH]; intros obs cur Hlen H.
  - by destruct obs.
  - destruct obs as [|o obs]; [done|]. cbn [zip_with foldl].
    rewrite IH.
    2: { cbn in Hlen. lia. }
    2: { intros i o' Hc Ho. apply (H (S i) o'); done. }
    rewrite write_at_cat_write, occurrences_cons.
    destruct (decide (c' = c)) as [->|Hne]; [|done].
    assert (Hf : found o = false) by (apply (H 0%nat o); done).
    rewrite Hf. by destruct (occurrences c cats).
Qed.

Lemma apply_incrementOne d :
  apply_update incrementOne d !! "countActiveListings"
  = Some (bump (d !! "countActiveListings")).
Proof.
  unfold apply_update, incrementOne, apply_field. cbn.
  destruct (d !! "countActiveListings") as [[]|]; cbn;
    by rewrite lookup_insert_eq.
Qed.

(** ... and from one that the reads found present: every occurrence
    increments it. *)
Lemma foldl_cat_writes_present t c cats obs v d :
  length obs = length cats →
  (∀ i o, cats !! i = Some c → obs !! i = Some o → found o = true) →
  ∃ v' d',
    foldl (write_at t (categoryRef c)) (Some (v, d))
      (zip_with (λ o category, cat_write category o) obs cats)
    = Some (v', d') ∧
    d' !! "countActiveListings"
    = bump_n (occurrences c cats) (d !! "countActiveListings").
Proof.
  revert obs v d. induction cats as [|c' cats IH]; intros obs v d Hlen H.
  - destruct obs; [|done]. cbn. eauto.
  - destruct obs as [|o obs]; [done|]. cbn [zip_with foldl].
    rewrite write_at_cat_write, occurrences_cons.
    assert (Hlen' : length obs = length cats) by (cbn in Hlen; lia).
    assert (H' : ∀ i o, cats !! i = Some c → obs !! i = Some o → found o = true)
      by (intros i o' Hc Ho; apply (H (S i) o'); done).
    destruct (decide (c' = c)) as [->|Hne]; [|by apply IH].
    assert (Hf : found o = true) by (apply (H 0%nat o); done).
    rewrite Hf. cbn [bump_n].
    destruct (IH obs t (apply_update incrementOne d) Hlen' H')
      as (v' & d' & -> & Hd').
    exists v', d'. split; [done|]. by rewrite Hd', apply_incrementOne.
Qed.

Lemma found_version (m : Docs) ρ (o : Obs) :
  version m ρ = fst <$> o → found o = found (m !! ρ).
Proof. unfold version. by destruct (m !! ρ), o. Qed.

Lemma reads_valid l m r url obs j :
  validate m (reads_of l (PhWrite r url obs j)) = true →
  ∀ i c o, categories l !! i = Some c → obs !! i = Some o →
           version m (categoryRef c) = fst <$> o.
Proof.
  rewrite validate_spec. intros H i c o Hc Ho.
  change (version m (categoryRef c, fst <$> o).1 = (categoryRef c, fst <$> o).2).
  apply H. cbn. apply list_elem_of_lookup. exists i.
  rewrite lookup_zip_with, Ho. cbn. unfold categoryRefs.
  by rewrite list_lookup_fmap, Hc.
Qed.

Lemma occurrences_pos c cats : c ∈ cats → (0 < occurrences c cats)%nat.
Proof.
  intros H. unfold occurrences.
  assert (Hin : c ∈ filter (λ x, x = c) cats) by (by apply list_elem_of_filter).
  destruct (filter (λ x, x = c) cats); [by apply elem_of_nil in Hin|cbn; lia].
Qed.

Lemma occurrences_NoDup c cats :
  NoDup cats → c ∈ cats → occurrences c cats = 1%nat.
Proof.
  unfold occurrences. induction 1 as [|x cats Hx Hnd IH]; intros Hin.
  - by apply elem_of_nil in Hin.
  - rewrite filter_cons. destruct (decide (x = c)) as [->|Hne].
    + cbn. f_equal. destruct (filter (λ x, x = c) cats) as [|y ys] eqn:E; [done|].
      assert (Hy : y ∈ filter (λ x, x = c) cats) by (rewrite E; set_solver).
      apply list_elem_of_filter in Hy as [-> Hy]. done.
    + apply IH. set_solver.
Qed.



(** *** What a commit does *)

Lemma writes_of_full l r url obs :
  length obs = length (categories l) →
  writes_of l (PhWrite r url obs (length (categories l)))
  = WSet r (listingData l r.2 url) :: cat_writes l obs.
Proof.
  intros Hlen. cbn. f_equal. apply take_ge. unfold cat_writes.
  rewrite length_zip_with. lia.
Qed.

Lemma cat_writes_elem l obs w :
  w ∈ cat_writes l obs →
  ∃ i c o, categories l !! i = Some c ∧ obs !! i = Some o ∧ w = cat_write c o.
Proof.
  intros [i Hi]%list_elem_of_lookup. unfold cat_writes in Hi.
  apply lookup_zip_with_Some in Hi as (o & c & -> & Ho & Hc). eauto 6.
Qed.

Lemma commit_docs l t m r url obs :
  length obs = length (categories l) →
  r.1 = "listings" →
  validate m (reads_of l (PhWrite r url obs (length (categories l)))) = true →
  ∃ m',
    apply_writes t (writes_of l (PhWrite r url obs (length (categories l)))) m
    = Some m' ∧
    m' !! r = Some (t, listingData l r.2 url) ∧
    (∀ c, c ∈ categories l →
          countActiveListings m' c
          = count_after (occurrences c (categories l)) (m !! categoryRef c)) ∧
    (∀ ρ, ρ ≠ r → ρ ∉ categoryRefs l → m' !! ρ = m !! ρ).
Proof.
  intros Hlen Hr Hval. pose proof (reads_valid _ _ _ _ _ _ Hval) as Hv.
  rewrite writes_of_full by done.
  assert (Hrc : ∀ c, categoryRef c ≠ r).
  { intros c E. rewrite <- E in Hr. done. }
  destruct (apply_writes_ok t (WSet r (listingData l r.2 url) :: cat_writes l obs) m)
    as [m' Hm'].
  { intros ρ u [Hin|Hin]%elem_of_cons; [done|].
    apply cat_writes_elem in Hin as (i & c & o & Hc & Ho & Hw).
    pose proof (found_version _ _ _ (Hv i c o Hc Ho)) as Hf.
    unfold cat_write in Hw. destruct (found o) eqn:Hfo; [|done].
    injection Hw as -> ->. by destruct (m !! categoryRef c). }
  exists m'. split; [done|]. split; [|split].
  - rewrite (apply_writes_lookup _ _ _ _ r Hm'). cbn [foldl].
    rewrite foldl_write_at_other.
    + unfold write_at. cbn. by rewrite decide_True.
    + intros w (i & c & o & _ & _ & ->)%cat_writes_elem.
      rewrite writeRef_cat_write. apply Hrc.
  - intros c Hc. unfold countActiveListings, snapshot.
    rewrite (apply_writes_lookup _ _ _ _ (categoryRef c) Hm'). cbn [foldl].
    unfold write_at at 2. cbn [writeRef].
    rewrite decide_False by (intros E; by apply (Hrc c)).
    unfold cat_writes, count_after.
    destruct (m !! categoryRef c) as [[v d]|] eqn:E.
    + destruct (foldl_cat_writes_present t c (categories l) obs v d Hlen)
        as (v' & d' & -> & Hd'); [|done].
      intros i o Hi Ho. rewrite (found_version _ _ _ (Hv i c o Hi Ho)).
      by rewrite E.
    + rewrite foldl_cat_writes_absent; [|done|].
      * pose proof (occurrences_pos _ _ Hc).
        destruct (occurrences c (categories l)); [lia|]. done.
      * intros i o Hi Ho. rewrite (found_version _ _ _ (Hv i c o Hi Ho)).
        by rewrite E.
  - intros ρ Hne Hnin. rewrite (apply_writes_lookup _ _ _ _ ρ Hm').
    apply foldl_write_at_other.
    intros w [->|Hin]%elem_of_cons; [done|].
    apply cat_writes_elem in Hin as (i & c & o & Hc & _ & ->).
    rewrite writeRef_cat_write. intros <-. apply Hnin.
    unfold categoryRefs. apply list_elem_of_fmap. exists c. split; [done|].
    apply list_elem_of_lookup. eauto.
Qed.



(** *** Counting events *)

Lemma count_ev_app f a b :
  count_ev f (a ++ b) = (count_ev f a + count_ev f b)%nat.
Proof. unfold count_ev. by rewrite filter_app, length_app. Qed.

Lemma count_ev_cons f e t :
  count_ev f (e :: t) = ((if f e then 1 else 0) + count_ev f t)%nat.
Proof.
  unfold count_ev. rewrite filter_cons.
  destruct (f e); [by rewrite decide_True|by rewrite decide_False].
Qed.

Lemma count_ev_none f t :
  (∀ e, e ∈ t → f e = false) → count_ev f t = 0%nat.
Proof.
  induction t as [|e t IH]; intros H; [done|].
  rewrite count_ev_cons, IH by set_solver.
  rewrite (H e) by set_solver. done.
Qed.

Lemma gets_trace_get l obs e : e ∈ gets_trace l obs → is_get_event e = true.
Proof.
  unfold gets_trace. by intros (o & r & -> & _)%elem_of_zip_with.
Qed.

Lemma ev_of_write_write ws e :
  e ∈ map ev_of_write ws → is_write_event e = true.
Proof. intros (w & -> & _)%list_elem_of_fmap. by destruct w. Qed.

Lemma count_gets f l obs :
  (∀ e, is_get_event e = true → f e = false) →
  count_ev f (gets_trace l obs) = 0%nat.
Proof.
  intros H. apply count_ev_none. intros e He. apply H.
  by eapply gets_trace_get.
Qed.

Lemma count_writes f ws :
  (∀ e, is_write_event e = true → f e = false) →
  count_ev f (map ev_of_write ws) = 0%nat.
Proof.
  intros H. apply count_ev_none. intros e He. apply H.
  by eapply ev_of_write_write.
Qed.

Lemma count_upload_trace l r url :
  url_ok l r url →
  count_ev is_upload_event (upload_trace l r url)
  = match asset l with Some _ => 1%nat | None => 0%nat end.
Proof.
  unfold url_ok, upload_trace. destruct (asset l) as [img|] eqn:E.
  - apply asset_image in E as [-> _]. by intros [[u ->] _].
  - by intros ->.
Qed.

Lemma count_upload_trace_other f l r url :
  (∀ e, is_upload_event e = true → f e = false) →
  count_ev f (upload_trace l r url) = 0%nat.
Proof.
  intros H. apply count_ev_none. intros e He. apply H.
  unfold upload_trace in He. destruct url, (image l); set_solver.
Qed.

Lemma restart_in_flight l n hist ph :
  restart (in_flight l n hist ph)
  = in_flight l (S n) (hist ++ EvAttempt n :: trace_of l ph ++ [EvCommit false])
      PhNew.
Proof.
  unfold restart, in_flight. cbn. f_equal.
  rewrite <- !app_assoc. cbn. rewrite <- !app_assoc. done.
Qed.

Lemma hist_ok_restart l n hist r url obs j :
  url_ok l r url → hist_ok l n hist →
  hist_ok l (S n)
    (hist ++ EvAttempt n :: trace_of l (PhWrite r url obs j) ++ [EvCommit false]).
Proof.
  intros Hu (Hn & Ha & Hd & Hup & Hc & _). unfold hist_ok.
  cbn [trace_of].
  rewrite !count_ev_app, !count_ev_cons, !count_ev_app, !count_ev_cons,
    !count_ev_app.
  rewrite !count_gets, !count_writes by (by intros []).
  rewrite (count_upload_trace _ _ _ Hu).
  rewrite !count_upload_trace_other by (by intros []).
  cbn. rewrite Ha, Hd, Hup, Hc. destruct (asset l); repeat split; try lia; by destruct hist.
Qed.





(** *** Every state of a publication is one of those named *)

Lemma wf_phase_after_new l r :
  r.1 = "listings" → wf_phase l (phase_after_new l r).
Proof.
  intros Hr. unfold phase_after_new, wf_phase, url_ok, asset.
  destruct (image l) as [img|]; [destruct (truthy img) eqn:T|]; cbn;
    rewrite ?T; repeat split; auto; lia.
Qed.

Lemma publishing_step l w c :
  publishing l c →
  publishing l (client_step w c).2 ∧
  (quiet_step w (client_step w c).1 c (client_step w c).2 ∨
   commit_step l w (client_step w c).1 c (client_step w c).2).
Proof.
  intros [n hist ph Hwf Hh | n hist r url obs Hwf Hh
         | n hist r img Hwf Hh | n hist r url obs Hwf Hh Hn].
  2-4: (split; [by econstructor|left]; repeat split; try done; by intros p _).
  destruct ph as [|r img|r img|r url obs|r url obs j].
  - rewrite step_new. cbn. split.
    + constructor; [by apply wf_phase_after_new|done].
    + left. repeat split; try done.
  - destruct Hwf as [Hr Ha]. destruct (upload img r.2) as [u|] eqn:Hu.
    + rewrite (step_upload_ok _ _ _ _ _ _ _ Ha Hu). cbn. split.
      * constructor; [|done]. cbn. unfold url_ok. rewrite Ha.
        repeat split; eauto; lia.
      * left. repeat split; try done.
    + rewrite (step_upload_fail _ _ _ _ _ _ Hu). cbn. split.
      * constructor; [|done]. cbn. done.
      * left. repeat split; try done.
  - rewrite step_failed. cbn. split.
    + by constructor.
    + left. repeat split; try done.
  - destruct Hwf as (Hr & Hu & Hlen).
    destruct (decide (length obs = length (categories l))) as [Hfull|Hpart].
    + rewrite step_read_done by done. cbn. split.
      * constructor; [|done]. cbn. repeat split; auto; lia.
      * left. repeat split; try done.
    + destruct (lookup_lt_is_Some_2 (categoryRefs l) (length obs)) as [x Hx].
      { unfold categoryRefs. rewrite length_map. lia. }
      rewrite (step_read _ _ _ _ _ _ _ x Hx). cbn. split.
      * constructor; [|done]. cbn. rewrite length_app. cbn.
        repeat split; auto; lia.
      * left. repeat split; try done.
  - destruct Hwf as (Hr & Hu & Hlen & Hj).
    destruct (decide (j = length (categories l))) as [->|Hpart].
    + rewrite step_commit by done. unfold commit.
      cbn [c_reads c_writes c_attempt in_flight].
      destruct (validate (w_docs w) _) eqn:Hval.
      * destruct (commit_docs l (S (w_clock w)) (w_docs w) r url obs Hlen Hr Hval)
          as (m' & -> & Hm'). cbn. split.
        -- by constructor.
        -- right. split; [done|]. split; [done|].
           exists n, hist, r, url, obs. repeat split; try done; apply Hm'.
      * destruct (n <? maxAttempts)%nat eqn:Hlt; cbn.
        -- rewrite restart_in_flight. split.
           ++ constructor; [done|]. by eapply hist_ok_restart.
           ++ left. repeat split; try done.
        -- split.
           ++ constructor; [done..|]. apply Nat.ltb_ge in Hlt. lia.
           ++ left. repeat split; try done.
    + destruct (lookup_lt_is_Some_2 (categories l) j) as [cat Hc]; [lia|].
      destruct (lookup_lt_is_Some_2 obs j) as [o Ho]; [lia|].
      rewrite (step_write _ _ _ _ _ _ _ _ cat o Hc Ho). cbn. split.
      * constructor; [|done]. cbn. repeat split; auto; lia.
      * left. repeat split; try done.
Qed.



(** *** Executions *)

Lemma exec_cons lbl sched s : exec (lbl :: sched) s = exec sched (sys_step s lbl).
Proof. reflexivity. Qed.

Lemma exec_app s1 s2 s : exec (s1 ++ s2) s = exec s2 (exec s1 s).
Proof. apply foldl_app. Qed.

Lemma sys_step_single w c :
  sys_step (mkSys w [c]) (LClient 0)
  = mkSys (client_step w c).1 [(client_step w c).2].
Proof. cbn. by destruct (client_step w c). Qed.

Lemma sys_step_single_other w (c : Client) i :
  sys_step (mkSys w [c]) (LClient (S i)) = mkSys w [c].
Proof. reflexivity. Qed.

Lemma sys_step_none w i : sys_step (mkSys w []) (LClient i) = mkSys w [].
Proof. reflexivity. Qed.

Lemma env_commit_eq w1 w2 ws :
  w_docs w1 = w_docs w2 → w_clock w1 = w_clock w2 →
  w_docs (env_commit w1 ws) = w_docs (env_commit w2 ws) ∧
  w_clock (env_commit w1 ws) = w_clock (env_commit w2 ws).
Proof.
  intros Hd Hc. unfold env_commit. rewrite Hd, Hc.
  by destruct (apply_writes _ _ _).
Qed.

(** A settled publication no longer takes part. *)
Lemma exec_settled sched w c p :
  c_result c = Some p →
  exec sched (mkSys w [c]) = mkSys (world (exec sched (mkSys w []))) [c].
Proof.
  intros Hp. revert w. induction sched as [|[[|i]|ws] sched IH]; intros w.
  - done.
  - rewrite !exec_cons, sys_step_single, sys_step_none.
    unfold client_step. rewrite Hp. cbn. apply IH.
  - rewrite !exec_cons, sys_step_single_other, sys_step_none. apply IH.
  - rewrite !exec_cons. cbn [sys_step world clients]. apply IH.
Qed.

Lemma exec_publishing l sched w c :
  publishing l c →
  ∃ w' c', exec sched (mkSys w [c]) = mkSys w' [c'] ∧ publishing l c'.
Proof.
  revert w c. induction sched as [|[[|i]|ws] sched IH]; intros w c Hp.
  - eauto.
  - rewrite exec_cons, sys_step_single.
    apply IH. by apply (publishing_step).
  - rewrite exec_cons, sys_step_single_other. by apply IH.
  - rewrite exec_cons. cbn [sys_step world clients]. by apply IH.
Qed.

(** The one step at which a publication that resolves changed the store. *)
Lemma publish_resolved_split l sched w we c :
  publishing l c → c_result c = None →
  w_docs we = w_docs w → w_clock we = w_clock w →
  result_of (exec sched (mkSys w [c])) 0 = Some (Resolved tt) →
  ∃ sched1 sched2 w1 c1,
    sched = sched1 ++ LClient 0 :: sched2 ∧
    exec sched1 (mkSys w [c]) = mkSys w1 [c1] ∧
    w_docs (world (exec sched1 (mkSys we []))) = w_docs w1 ∧
    commit_step l w1 (client_step w1 c1).1 c1 (client_step w1 c1).2 ∧
    exec sched (mkSys w [c])
    = mkSys (world (exec sched2 (mkSys (client_step w1 c1).1 [])))
        [(client_step w1 c1).2].
Proof.
  revert w we c. induction sched as [|[[|i]|ws] sched IH];
    intros w we c Hp Hnone Hd Hc Hres.
  - unfold result_of in Hres. cbn in Hres. congruence.
  - rewrite exec_cons, sys_step_single in Hres.
    destruct (publishing_step l w c Hp) as [Hp' [Hq|Hcommit]].
    + destruct Hq as (Hd' & Hc' & Hnr & _).
      destruct (c_result (client_step w c).2) as [p|] eqn:Hr.
      * rewrite (exec_settled _ _ _ _ Hr) in Hres.
        unfold result_of in Hres. cbn in Hres. rewrite Hr in Hres.
        exfalso. apply (Hnr Hnone). congruence.
      * destruct (IH (client_step w c).1 we (client_step w c).2 Hp' Hr)
          as (s1 & s2 & w1 & c1 & -> & He & Hdd & Hcs & Hfin); [congruence..|done|].
        exists (LClient 0 :: s1), s2, w1, c1.
        split; [done|]. split; [by rewrite exec_cons, sys_step_single|].
        split; [by rewrite exec_cons, sys_step_none|].
        split; [done|]. by rewrite exec_cons, sys_step_single.
    + exists [], sched, w, c.
      split; [done|]. split; [done|]. split; [done|]. split; [done|].
      rewrite exec_cons, sys_step_single.
      destruct Hcommit as (_ & _ & n & hist & r & url & obs & _ & _ & Hc' & _).
      apply (exec_settled _ _ _ (Resolved tt)). by rewrite Hc'.
  - rewrite exec_cons, sys_step_single_other in Hres.
    destruct (IH w we c Hp Hnone Hd Hc Hres)
      as (s1 & s2 & w1 & c1 & -> & He & Hdd & Hcs & Hfin).
    exists (LClient (S i) :: s1), s2, w1, c1. done.
  - rewrite exec_cons in Hres. cbn [sys_step world clients] in Hres.
    destruct (env_commit_eq we w ws Hd Hc) as [Hd' Hc'].
    destruct (IH _ (env_commit we ws) c Hp Hnone Hd' Hc' Hres)
      as (s1 & s2 & w1 & c1 & -> & He & Hdd & Hcs & Hfin).
    exists (LEnv ws :: s1), s2, w1, c1. done.
Qed.

(** *** From the first call to the settled promise *)

Lemma hist_ok_first l : hist_ok l 1 [].
Proof. unfold hist_ok. cbn. by destruct (asset l). Qed.

Lemma publishing_start l : publishing l (uploadListing l).
Proof.
  change (uploadListing l) with (in_flight l 1 [] PhNew).
  constructor; [done|apply hist_ok_first].
Qed.

Lemma publishing_resolved l c :
  publishing l c → c_result c = Some (Resolved tt) →
  ∃ n hist r url obs,
    wf_phase l (PhWrite r url obs (length (categories l))) ∧
    hist_ok l n hist ∧
    c = settle (in_flight l n hist (PhWrite r url obs (length (categories l))))
          (Resolved tt) [EvCommit true].
Proof.
  intros [n hist ph Hwf Hh | n hist r url obs Hwf Hh
         | n hist r img Hwf Hh | n hist r url obs Hwf Hh Hn] Hres;
    try done.
  by exists n, hist, r, url, obs.
Qed.

Lemma resolved_trace l n hist r url obs :
  length obs = length (categories l) →
  c_trace (settle (in_flight l n hist (PhWrite r url obs (length (categories l))))
             (Resolved tt) [EvCommit true])
  = hist ++ EvAttempt n :: EvNewDoc r :: upload_trace l r url
      ++ gets_trace l obs
      ++ EvSet r (listingData l r.2 url) :: map ev_of_write (cat_writes l obs)
      ++ [EvCommit true].
Proof.
  intros Hlen. cbn [c_trace settle in_flight trace_of].
  rewrite writes_of_full by done. cbn [map ev_of_write].
  rewrite <- ?app_assoc. cbn. rewrite <- ?app_assoc. cbn.
  by rewrite <- ?app_assoc.
Qed.

Lemma result_of_single w c p :
  result_of (mkSys w [c]) 0 = Some p → c_result c = Some p.
Proof. done. Qed.

Lemma count_after_one (m : Docs) c :
  count_after 1 (m !! categoryRef c) = Some (bump (countActiveListings m c)).
Proof.
  unfold count_after, countActiveListings, snapshot.
  by destruct (m !! categoryRef c) as [[v d]|].
Qed.

Lemma bump_n_num n m :
  bump_n n (Some (VNum m)) = Some (VNum (m + Z.of_nat n)).
Proof.
  revert m. induction n as [|n IH]; intros m.
  - cbn. do 2 f_equal. lia.
  - cbn [bump_n bump]. rewrite IH. do 2 f_equal. lia.
Qed.

Lemma cat_writes_for_category l obs c :
  length obs = length (categories l) →
  length (filter (λ w, writeRef w = categoryRef c) (cat_writes l obs))
  = occurrences c (categories l).
Proof.
  unfold cat_writes. generalize (categories l) as cats.
  intros cats. revert obs. induction cats as [|c' cats IH]; intros obs Hlen.
  - by destruct obs.
  - destruct obs as [|o obs]; [done|]. cbn [zip_with].
    rewrite filter_cons, occurrences_cons, writeRef_cat_write.
    destruct (decide (c' = c)) as [->|Hne].
    + rewrite decide_True by done. cbn. f_equal. apply IH. cbn in Hlen. lia.
    + rewrite decide_False by (intros E; by apply categoryRef_inj in E).
      apply IH. cbn in Hlen. lia.
Qed.

Lemma exec_publish l sched w0 :
  ∃ w c, exec sched (publish l w0) = mkSys w [c] ∧ publishing l c.
Proof. apply exec_publishing, publishing_start. Qed.

Lemma publish_split l sched w0 :
  result_of (exec sched (publish l w0)) 0 = Some (Resolved tt) →
  ∃ sched1 sched2 w1 c1,
    sched = sched1 ++ LClient 0 :: sched2 ∧
    w_docs (world (exec sched1 (mkSys w0 []))) = w_docs w1 ∧
    commit_step l w1 (client_step w1 c1).1 c1 (client_step w1 c1).2 ∧
    exec (sched1 ++ [LClient 0]) (publish l w0)
    = mkSys (client_step w1 c1).1 [(client_step w1 c1).2] ∧
    exec sched (publish l w0)
    = mkSys (world (exec sched2 (mkSys (client_step w1 c1).1 [])))
        [(client_step w1 c1).2].
Proof.
  intros Hres.
  destruct (publish_resolved_split l sched w0 w0 _ (publishing_start l)
              eq_refl eq_refl eq_refl Hres)
    as (s1 & s2 & w1 & c1 & -> & He & Hd & Hc & Hfin).
  exists s1, s2, w1, c1.
  split; [done|]. split; [done|]. split; [done|]. split; [|done].
  rewrite exec_app. unfold publish. rewrite He.
  rewrite exec_cons. apply sys_step_single.
Qed.

(** C1: in a publication that commits, the committing attempt first reads
    the aggregate of every category named, in array order, and only then
    writes: the listing, then for the [i]-th category an [update] with
    [increment(1)] of [countActiveListings] when the [i]-th read found the
    aggregate, and a [set] of [{countActiveListings: 1}] when it did not.
    The increment adds exactly one to a numeric count. *)
Theorem uploadListing_category_writes l w0 sched :
  result_of (exec sched (publish l w0)) 0 = Some (Resolved tt) →
  ∃ c hist n r url obs,
    clients (exec sched (publish l w0)) = [c] ∧
    length obs = length (categories l) ∧
    c_trace c
    = hist ++ EvAttempt n :: EvNewDoc r :: upload_trace l r url
        ++ gets_trace l obs
        ++ EvSet r (listingData l r.2 url)
           :: map ev_of_write (cat_writes l obs) ++ [EvCommit true] ∧
    (∀ e, e ∈ EvNewDoc r :: upload_trace l r url ++ gets_trace l obs →
          is_write_event e = false) ∧
    (∀ i category, categories l !! i = Some category →
       ∃ o,
         gets_trace l obs !! i
         = Some (EvGet ("categories", category) (found o)) ∧
         map ev_of_write (cat_writes l obs) !! i
         = Some (if found o
                 then EvUpdate ("categories", category)
                        [("countActiveListings", FIncrement 1)]
                 else EvSet ("categories", category)
                        {["countActiveListings" := VNum 1]})) ∧
    (∀ (d : DocData) m,
       d !! "countActiveListings" = Some (VNum m) →
       apply_update [("countActiveListings", FIncrement 1)] d
         !! "countActiveListings" = Some (VNum (m + 1))).
Proof.
  intros Hres. destruct (exec_publish l sched w0) as (w & c & He & Hp).
  rewrite He in Hres. apply result_of_single in Hres.
  destruct (publishing_resolved l c Hp Hres)
    as (n & hist & r & url & obs & (Hr & Hu & Hlen & _) & Hh & ->).
  eexists _, hist, n, r, url, obs. rewrite He.
  split; [done|]. split; [done|]. split; [by apply resolved_trace|].
  split; [|split].
  - intros e [->|[He'|He']%elem_of_app]%elem_of_cons; [done|..].
    + unfold upload_trace in He'. destruct url, (image l); set_solver.
    + apply gets_trace_get in He'. by destruct e.
  - intros i category Hc.
    destruct (lookup_lt_is_Some_2 obs i) as [o Ho].
    { rewrite Hlen. by eapply lookup_lt_Some. }
    exists o. split.
    + unfold gets_trace. rewrite lookup_zip_with, Ho. cbn.
      unfold categoryRefs. by rewrite list_lookup_fmap, Hc.
    + rewrite list_lookup_fmap, (cat_writes_lookup _ _ _ _ _ Hc Ho). cbn.
      unfold cat_write. by destruct (found o).
  - intros d m Hd.
    change [("countActiveListings", FIncrement 1)] with incrementOne.
    by rewrite apply_incrementOne, Hd.
Qed.

(** C5: a publication that resolves changed the store in exactly one of
    its steps, its commit, however many of its attempts were refused
    before.  That commit leaves every aggregate that the category-set names
    (each key once) at one more than the store held just before it (at
    one, where there was no count), the store just before it being what
    the other parties alone had made of it: a refused attempt leaves
    nothing behind. *)
Theorem publish_increments_once l w0 sched :
  result_of (exec sched (publish l w0)) 0 = Some (Resolved tt) →
  ∃ sched1 sched2,
    sched = sched1 ++ LClient 0 :: sched2 ∧
    let before := world (exec sched1 (mkSys w0 [])) in
    let after := world (exec (sched1 ++ [LClient 0]) (publish l w0)) in
    (∀ c, c ∈ categories l → occurrences c (categories l) = 1%nat →
          countActiveListings (w_docs after) c
          = Some (bump (countActiveListings (w_docs before) c))) ∧
    (NoDup (categories l) →
     ∀ c, c ∈ categories l →
          countActiveListings (w_docs after) c
          = Some (bump (countActiveListings (w_docs before) c))) ∧
    w_docs (world (exec sched (publish l w0)))
    = w_docs (world (exec sched2 (mkSys after []))).
Proof.
  intros Hres.
  destruct (publish_split l sched w0 Hres)
    as (s1 & s2 & w1 & c1 & -> & Hd & Hc & Hafter & Hfin).
  exists s1, s2. split; [done|]. cbn zeta. rewrite Hafter, Hfin, Hd.
  cbn [world].
  destruct Hc as (_ & _ & n & hist & r & url & obs & _ & _ & _ & He).
  destruct He as (_ & _ & Hcount & _).
  assert (Hone : ∀ c, c ∈ categories l → occurrences c (categories l) = 1%nat →
            countActiveListings (w_docs (client_step w1 c1).1) c
            = Some (bump (countActiveListings (w_docs w1) c))).
  { intros c Hin Hocc. rewrite (Hcount c Hin), Hocc. apply count_after_one. }
  split; [done|]. split; [|done].
  intros Hnd c Hin. apply Hone; [done|]. by apply occurrences_NoDup.
Qed.

(** C10: the categories array is not deduplicated.  When a publication
    resolves, its commit holds one write per occurrence of a category
    named [n > 1] times: an aggregate that existed with a numeric count
    ends [n] higher, one that did not exist ends at one. *)
Theorem uploadListing_no_dedup l w0 sched c n :
  occurrences c (categories l) = n → (1 < n)%nat →
  result_of (exec sched (publish l w0)) 0 = Some (Resolved tt) →
  ∃ sched1 sched2 cl,
    sched = sched1 ++ LClient 0 :: sched2 ∧
    clients (exec sched (publish l w0)) = [cl] ∧
    length (filter (λ w, writeRef w = categoryRef c) (c_writes cl)) = n ∧
    let before := w_docs (world (exec sched1 (mkSys w0 []))) in
    let after := w_docs (world (exec (sched1 ++ [LClient 0]) (publish l w0))) in
    (∀ v (d : DocData) m,
       before !! categoryRef c = Some (v, d) →
       d !! "countActiveListings" = Some (VNum m) →
       countActiveListings after c = Some (VNum (m + Z.of_nat n))) ∧
    (before !! categoryRef c = None →
     countActiveListings after c = Some (VNum 1)).
Proof.
  intros Hocc Hn Hres.
  destruct (publish_split l sched w0 Hres)
    as (s1 & s2 & w1 & c1 & -> & Hd & Hc & Hafter & Hfin).
  destruct Hc as (_ & _ & k & hist & r & url & obs & Hlen & -> & Hc' & He).
  destruct He as (Hr & _ & Hcount & _).
  exists s1, s2, (client_step w1 (in_flight l k hist
                    (PhWrite r url obs (length (categories l))))).2.
  split; [done|]. rewrite Hfin. split; [done|]. split.
  - rewrite Hc'. cbn [c_writes settle in_flight]. rewrite writes_of_full by done.
    rewrite filter_cons, decide_False.
    + by rewrite cat_writes_for_category.
    + cbn. intros E. rewrite E in Hr. done.
  - cbn zeta. rewrite Hafter, Hd. cbn [world].
    assert (Hin : c ∈ categories l).
    { assert (Hpos : (0 < length (filter (λ x, x = c) (categories l)))%nat)
        by (fold (occurrences c (categories l)); lia).
      destruct (filter (λ x, x = c) (categories l)) as [|y ys] eqn:E;
        [cbn in Hpos; lia|].
      assert (Hy : y ∈ filter (λ x, x = c) (categories l))
        by (rewrite E; set_solver).
      by apply list_elem_of_filter in Hy as [-> Hy]. }
    rewrite (Hcount c Hin), Hocc. split.
    + intros v d m -> Hm. cbn. by rewrite Hm, bump_n_num.
    + by intros ->.
Qed.

Lemma listingData_id l id url :
  listingData l id url !! "listingId" = Some (VStr id).
Proof.
  unfold listingData. destruct url as [u|]; [destruct (truthy u)|];
    rewrite ?(lookup_insert_ne _ "imagePath") by done;
    apply lookup_insert_eq.
Qed.

(** C4 (amended): the document id is drawn inside the callback, so every
    attempt draws its own and uploads the asset again: a publication that
    resolves in its [n]-th attempt has begun [n] attempts, drawn [n] ids,
    uploaded its asset (if it has one) [n] times and asked for [n]
    commits, and the listing it wrote carries the id drawn last. *)
Theorem uploadListing_allocates_per_attempt l w0 sched :
  result_of (exec sched (publish l w0)) 0 = Some (Resolved tt) →
  ∃ c,
    clients (exec sched (publish l w0)) = [c] ∧
    count_ev is_attempt_event (c_trace c) = c_attempt c ∧
    count_ev is_newdoc_event (c_trace c) = c_attempt c ∧
    count_ev is_upload_event (c_trace c)
    = match asset l with Some _ => c_attempt c | None => 0%nat end ∧
    count_ev is_commit_event (c_trace c) = c_attempt c ∧
    ∃ hist r url rest,
      c_trace c = hist ++ EvAttempt (c_attempt c) :: EvNewDoc r :: rest ∧
      EvSet r (listingData l r.2 url) ∈ rest ∧
      (∀ e, e ∈ rest → is_newdoc_event e = false).
Proof.
  intros Hres. destruct (exec_publish l sched w0) as (w & c & He & Hp).
  rewrite He in Hres. apply result_of_single in Hres.
  destruct (publishing_resolved l c Hp Hres)
    as (n & hist & r & url & obs & (Hr & Hu & Hlen & _) & Hh & ->).
  eexists. rewrite He. split; [done|].
  rewrite resolved_trace by done. cbn [c_attempt settle in_flight].
  destruct Hh as (Hn & Ha & Hd & Hup & Hc & _).
  rewrite !count_ev_app, !count_ev_cons, !count_ev_app, !count_ev_cons,
    !count_ev_app, !count_ev_cons.
  rewrite !count_gets, !count_writes by (by intros []).
  rewrite (count_upload_trace _ _ _ Hu).
  rewrite !count_upload_trace_other by (by intros []).
  cbn. rewrite Ha, Hd, Hup, Hc.
  split; [lia|]. split; [lia|]. split; [destruct (asset l); lia|].
  split; [lia|].
  eexists hist, r, url, _. split; [done|]. split.
  - set_solver.
  - intros e [He'|[He'|He']%elem_of_app]%elem_of_app.
    + unfold upload_trace in He'. destruct url, (image l); set_solver.
    + apply gets_trace_get in He'. by destruct e.
    + apply elem_of_cons in He' as [->|[He'| ->%list_elem_of_singleton]%elem_of_app];
        [done| |done].
      apply ev_of_write_write in He'. by destruct e.
Qed.

(** C6 (amended): [uploadListing] resolves to nothing.  The id it drew is
    to be found only in the store: at its commit the new listing is
    stored under that id and carries it as [listingId]. *)
Theorem uploadListing_resolves_void l w0 sched :
  result_of (exec sched (publish l w0)) 0 = Some (Resolved tt) →
  (∀ p : Promise unit, p = Resolved tt ∨ ∃ e, p = Rejected e) ∧
  ∃ sched1 sched2 id url t c,
    sched = sched1 ++ LClient 0 :: sched2 ∧
    clients (exec sched (publish l w0)) = [c] ∧
    EvNewDoc ("listings", id) ∈ c_trace c ∧
    w_docs (world (exec (sched1 ++ [LClient 0]) (publish l w0)))
      !! ("listings", id) = Some (t, listingData l id url) ∧
    listingData l id url !! "listingId" = Some (VStr id).
Proof.
  intros Hres. split; [intros [[]|e]; eauto|].
  destruct (publish_split l sched w0 Hres)
    as (s1 & s2 & w1 & c1 & -> & Hd & Hc & Hafter & Hfin).
  destruct Hc as (_ & _ & k & hist & r & url & obs & Hlen & -> & Hc' & He).
  destruct He as (Hr & Hdoc & _).
  destruct r as [coll id]. cbn in Hr. subst coll.
  eexists s1, s2, id, url, _, _. split; [done|]. rewrite Hfin, Hafter.
  cbn [world clients]. split; [done|]. split; [|split].
  - rewrite Hc'. cbn. set_solver.
  - apply Hdoc.
  - apply listingData_id.
Qed.

(** *** A publication running alone *)

Lemma run_alone_S n w c :
  run_alone (S n) w c = run_alone n (client_step w c).1 (client_step w c).2.
Proof.
  unfold run_alone. cbn [replicate]. by rewrite exec_cons, sys_step_single.
Qed.

Lemma run_alone_reads l n hist r url w k m obs :
  (length obs + k)%nat = length (categories l) →
  run_alone (k + m) w (in_flight l n hist (PhRead r url obs))
  = run_alone m w
      (in_flight l n hist
         (PhRead r url
            (obs ++ map (λ x, w_docs w !! x)
                      (drop (length obs) (categoryRefs l))))).
Proof.
  revert obs. induction k as [|k IH]; intros obs Hlen.
  - rewrite drop_ge by (unfold categoryRefs; rewrite length_map; lia).
    cbn. by rewrite app_nil_r.
  - destruct (lookup_lt_is_Some_2 (categoryRefs l) (length obs)) as [x Hx].
    { unfold categoryRefs. rewrite length_map. lia. }
    cbn [Nat.add]. rewrite run_alone_S, (step_read _ _ _ _ _ _ _ x Hx).
    cbn [fst snd]. rewrite IH by (rewrite length_app; cbn; lia).
    rewrite (drop_S _ _ _ Hx), length_app. cbn [length map].
    by rewrite <- app_assoc, Nat.add_1_r.
Qed.

Lemma run_alone_writes l n hist r url w k m obs j :
  length obs = length (categories l) →
  (j + k)%nat = length (categories l) →
  run_alone (k + m) w (in_flight l n hist (PhWrite r url obs j))
  = run_alone m w
      (in_flight l n hist (PhWrite r url obs (length (categories l)))).
Proof.
  intros Hlen. revert j. induction k as [|k IH]; intros j Hj.
  - cbn. by replace j with (length (categories l)) by lia.
  - destruct (lookup_lt_is_Some_2 (categories l) j) as [cat Hc]; [lia|].
    destruct (lookup_lt_is_Some_2 obs j) as [o Ho]; [lia|].
    cbn [Nat.add].
    rewrite run_alone_S, (step_write _ _ _ _ _ _ _ _ cat o Hc Ho).
    cbn [fst snd]. apply IH. lia.
Qed.

Lemma validate_fresh_reads (l : ListingInput) (m : Docs) r url j :
  validate m
    (reads_of l (PhWrite r url (map (λ x, m !! x) (categoryRefs l)) j))
  = true.
Proof.
  apply validate_spec. intros [ρ v] Hin. cbn in Hin.
  apply list_elem_of_lookup in Hin as [i Hi].
  apply lookup_zip_with_Some in Hi as (o & x & [= -> ->] & Ho & Hx).
  rewrite list_lookup_fmap, Hx in Ho. by injection Ho as <-.
Qed.

Lemma run_alone_settled n w c p :
  c_result c = Some p → run_alone n w c = mkSys w [c].
Proof.
  intros Hp. induction n as [|n IH]; [done|].
  rewrite run_alone_S. unfold client_step. by rewrite Hp.
Qed.

(** Alone, a publication whose upload succeeds commits in its first
    attempt. *)
Lemma run_alone_publishes l w extra :
  (∀ img, asset l = Some img → is_Some (upload img (gen_id (w_draws w)))) →
  let r := ("listings", gen_id (w_draws w)) in
  let obs := map (λ x, w_docs w !! x) (categoryRefs l) in
  ∃ url m',
    url_ok l r url ∧
    commit_effect l r url (S (w_clock w)) (w_docs w) m' ∧
    run_alone (steps_needed l + extra) w (uploadListing l)
    = mkSys (mkWorld m' (S (w_clock w)) (S (w_draws w)))
        [settle (in_flight l 1 [] (PhWrite r url obs (length (categories l))))
           (Resolved tt) [EvCommit true]].
Proof.
  intros Hup r obs.
  change (uploadListing l) with (in_flight l 1 [] PhNew).
  set (w1 := mkWorld (w_docs w) (w_clock w) (S (w_draws w))).
  assert (Hobs : length obs = length (categories l)).
  { unfold obs, categoryRefs. by rewrite !length_map. }
  assert (Hrest : ∀ url, url_ok l r url →
    ∃ m', commit_effect l r url (S (w_clock w)) (w_docs w) m' ∧
      run_alone (length (categories l) + (1 + (length (categories l) + (1 + extra))))
        w1 (in_flight l 1 [] (PhRead r url []))
      = mkSys (mkWorld m' (S (w_clock w)) (S (w_draws w)))
          [settle (in_flight l 1 [] (PhWrite r url obs (length (categories l))))
             (Resolved tt) [EvCommit true]]).
  { intros url Hu. rewrite run_alone_reads by done. cbn [length app].
    rewrite drop_0. cbn [Nat.add]. rewrite run_alone_S, step_read_done by done.
    cbn [fst snd]. rewrite (run_alone_writes _ _ _ _ _ _ _ _ _ 0) by done.
    cbn [Nat.add]. rewrite run_alone_S, step_commit by done.
    unfold commit. cbn [c_reads c_writes c_attempt in_flight].
    rewrite validate_fresh_reads.
    destruct (commit_docs l (S (w_clock w)) (w_docs w) r url obs Hobs eq_refl
                (validate_fresh_reads l (w_docs w) r url _))
      as (m' & Hm' & He).
    cbn [w_docs w_clock w1]. unfold obs in Hm' |- *. rewrite Hm'.
    exists m'. split.
    - split; [done|]. apply He.
    - cbn [fst snd w_draws w1]. by apply (run_alone_settled _ _ _ (Resolved tt)). }
  unfold steps_needed. rewrite <- !Nat.add_assoc. cbn [Nat.add].
  rewrite run_alone_S, step_new. cbn [fst snd]. fold w1. fold r.
  unfold phase_after_new, asset in *.
  destruct (image l) as [img|] eqn:Hi; [destruct (truthy img) eqn:Ht|].
  - destruct (Hup img eq_refl) as [u Hu].
    destruct (Hrest (Some u)) as (m' & He & Hrun).
    { unfold url_ok, asset. rewrite Hi, Ht. eauto. }
    exists (Some u), m'. split; [|split; [done|]].
    { unfold url_ok, asset. rewrite Hi, Ht. eauto. }
    cbn [Nat.add]. rewrite run_alone_S.
    rewrite (step_upload_ok _ _ _ _ _ _ u); [done| |done].
    unfold asset. by rewrite Hi, Ht.
  - destruct (Hrest None) as (m' & He & Hrun).
    { unfold url_ok, asset. by rewrite Hi, Ht. }
    exists None, m'. split; [|split; [done|]].
    { unfold url_ok, asset. by rewrite Hi, Ht. }
    done.
  - destruct (Hrest None) as (m' & He & Hrun).
    { unfold url_ok, asset. by rewrite Hi. }
    exists None, m'. split; [|split; [done|]].
    { unfold url_ok, asset. by rewrite Hi. }
    done.
Qed.


(** *** A publication whose asset is refused *)

Lemma turns_cons i lbl sched :
  turns i (lbl :: sched)
  = ((if decide (lbl = LClient i) then 1 else 0) + turns i sched)%nat.
Proof. unfold turns. rewrite filter_cons. by case_decide. Qed.




(** *** Two publications racing for a new category *)

Lemma steps_needed_ge l : (3 ≤ steps_needed l)%nat.
Proof. unfold steps_needed. lia. Qed.

Lemma remaining_after_new l r :
  remaining l (phase_after_new l r) = (steps_needed l - 1)%nat.
Proof.
  destruct (image l) as [img|] eqn:Hi; [destruct (truthy img) eqn:Ht|];
    unfold phase_after_new; rewrite Hi, ?Ht; cbn;
    unfold steps_needed, asset; rewrite Hi, ?Ht; lia.
Qed.

Lemma remaining_pos l ph : (0 < remaining l ph)%nat.
Proof. pose proof (steps_needed_ge l). destruct ph; cbn; lia. Qed.

Lemma occurrences_elem c cats : (0 < occurrences c cats)%nat → c ∈ cats.
Proof.
  unfold occurrences. intros Hpos.
  destruct (filter (λ x, x = c) cats) as [|y ys] eqn:E; [cbn in Hpos; lia|].
  assert (Hy : y ∈ filter (λ x, x = c) cats) by (rewrite E; set_solver).
  by apply list_elem_of_filter in Hy as [-> Hy].
Qed.

Lemma reads_of_snoc l r url obs x (o : Obs) :
  categoryRefs l !! length obs = Some x →
  reads_of l (PhRead r url (obs ++ [o]))
  = reads_of l (PhRead r url obs) ++ [(x, fst <$> o)].
Proof. intros Hx. cbn. by rewrite (zip_with_snoc _ _ _ _ _ Hx). Qed.

Lemma racing_step l k w oc c n p st :
  (2 ≤ maxAttempts)%nat →
  occurrences k (categories l) = 1%nat →
  (∀ img owner, asset l = Some img → is_Some (upload img owner)) →
  racing upload l k (w_docs w) oc c n p st →
  (st = None →
   if oc then countActiveListings (w_docs w) k = Some (VNum 1)
   else w_docs w !! categoryRef k = None) →
  ∃ n' p' st',
    racing upload l k (w_docs (client_step w c).1) oc (client_step w c).2
      n' p' st' ∧
    (p' ≤ p - 1)%nat ∧
    ((w_docs (client_step w c).1 = w_docs w ∧ st' = st ∧
      (st ≠ None → n' = n)) ∨
     (st = None ∧ st' = Some oc ∧ (n' ≤ 2)%nat ∧
      (oc = false → n' = 1%nat) ∧
      countActiveListings (w_docs (client_step w c).1) k
      = Some (VNum (if oc then 2 else 1)))).
Proof.
  intros Hmax Hocc Hup Hr Hst.
  pose proof (steps_needed_ge l) as Hsn.
  destruct Hr as [n hist ph Hwf Hh Hn Hv | n hist r url obs b Hwf Hh Hn Hb].
  2: { exists n, 0%nat, (Some b). split; [by constructor|].
       split; [lia|]. left. done. }
  specialize (Hst eq_refl).
  destruct ph as [|r img|r img|r url obs|r url obs j].
  - rewrite step_new. cbn [fst snd w_docs].
    exists n, (potential l n (phase_after_new l ("listings", gen_id (w_draws w)))), None.
    split; [|split].
    + assert (Hreads : reads_of l (phase_after_new l ("listings", gen_id (w_draws w))) = []).
      { unfold phase_after_new.
        by destruct (image l) as [img|]; [destruct (truthy img)|]. }
      constructor; [by apply wf_phase_after_new|done|..]; rewrite Hreads.
      * destruct Hn as [->|(-> & -> & _)]; auto.
      * by left.
    + unfold potential. rewrite remaining_after_new. cbn. lia.
    + by left.
  - destruct Hwf as [Hrl Ha]. destruct (Hup img r.2 Ha) as [u Hu].
    rewrite (step_upload_ok _ _ _ _ _ _ _ Ha Hu). cbn [fst snd].
    exists n, (potential l n (PhRead r (Some u) [])), None.
    split; [|split].
    + constructor; [|done|..].
      * cbn. unfold url_ok. rewrite Ha. repeat split; eauto; lia.
      * destruct Hn as [->|(-> & -> & _)]; auto.
      * by left.
    + unfold potential. cbn. unfold steps_needed. rewrite Ha. lia.
    + by left.
  - destruct Hwf as [Ha Hfail]. destruct (Hup img r.2 Ha) as [u Hu]. congruence.
  - destruct Hwf as (Hrl & Hu & Hlen).
    destruct (decide (length obs = length (categories l))) as [Hfull|Hpart].
    + rewrite step_read_done by done. cbn [fst snd].
      exists n, (potential l n (PhWrite r url obs 0)), None.
      split; [|split].
      * constructor; [|done|..]; [cbn; repeat split; auto; lia|done|done].
      * unfold potential. cbn. lia.
      * by left.
    + destruct (lookup_lt_is_Some_2 (categoryRefs l) (length obs)) as [x Hx].
      { unfold categoryRefs. rewrite length_map. lia. }
      rewrite (step_read _ _ _ _ _ _ _ x Hx). cbn [fst snd].
      exists n, (potential l n (PhRead r url (obs ++ [w_docs w !! x]))), None.
      assert (Hval : validate (w_docs w)
                (reads_of l (PhRead r url (obs ++ [w_docs w !! x])))
              = validate (w_docs w) (reads_of l (PhRead r url obs))).
      { rewrite (reads_of_snoc _ _ _ _ _ _ Hx). apply validate_snoc. }
      split; [|split].
      * constructor; [|done|..]; rewrite ?Hval; [|done|done].
        cbn. rewrite length_app. cbn. repeat split; auto; lia.
      * unfold potential. cbn. rewrite length_app. cbn. lia.
      * by left.
  - destruct Hwf as (Hrl & Hu & Hlen & Hj).
    destruct (decide (j = length (categories l))) as [->|Hpart].
    + rewrite step_commit by done. unfold commit.
      cbn [c_reads c_writes c_attempt in_flight].
      destruct (validate (w_docs w) _) eqn:Hval.
      * destruct (commit_docs l (S (w_clock w)) (w_docs w) r url obs Hlen Hrl Hval)
          as (m' & -> & Hdoc & Hcount & Hother).
        cbn [fst snd w_docs].
        pose proof (reads_valid _ _ _ _ _ _ Hval) as Hrv.
        assert (Hk : k ∈ categories l) by (apply occurrences_elem; lia).
        assert (Hfound : found (w_docs w !! categoryRef k) = oc).
        { destruct oc; [|by rewrite Hst].
          unfold countActiveListings, snapshot in Hst.
          by destruct (w_docs w !! categoryRef k). }
        exists n, 0%nat, (Some oc). split; [|split].
        -- constructor; [done|done| |].
           ++ destruct Hn as [->|(-> & _)]; lia.
           ++ intros i o Hi Ho.
              by rewrite (found_version _ _ _ (Hrv i k o Hi Ho)).
        -- lia.
        -- right. split; [done|]. split; [done|]. split; [|split].
           ++ destruct Hn as [->|(-> & _)]; lia.
           ++ intros ->. by destruct Hn as [->|(_ & [=] & _)].
           ++ rewrite (Hcount k Hk), Hocc. destruct oc.
              ** unfold countActiveListings, snapshot in Hst.
                 destruct (w_docs w !! categoryRef k) as [[v d]|]; [|done].
                 cbn in Hst. cbn. by rewrite Hst.
              ** by rewrite Hst.
      * assert (Hn1 : n = 1%nat).
        { destruct Hn as [->|(_ & _ & Hv')]; [done|congruence]. }
        assert (Hoc : oc = true) by (destruct Hv; [congruence|done]).
        subst n. replace (1 <? maxAttempts)%nat with true
          by (symmetry; apply Nat.ltb_lt; lia).
        cbn [fst snd]. rewrite restart_in_flight.
        eexists 2%nat, (potential l 2 PhNew), None. split; [|split].
        -- constructor; [done|by eapply hist_ok_restart|..].
           ++ right. by rewrite validate_nil.
           ++ by left.
        -- unfold potential. cbn [remaining]. repeat case_decide; lia.
        -- by left.
    + destruct (lookup_lt_is_Some_2 (categories l) j) as [cat Hc]; [lia|].
      destruct (lookup_lt_is_Some_2 obs j) as [o Ho]; [lia|].
      rewrite (step_write _ _ _ _ _ _ _ _ cat o Hc Ho). cbn [fst snd].
      exists n, (potential l n (PhWrite r url obs (S j))), None.
      split; [|split].
      * constructor; [|done|done|done]. cbn. repeat split; auto; lia.
      * unfold potential. cbn. lia.
      * by left.
Qed.

Lemma racing_other_committed l k m m' c n p st :
  racing upload l k m false c n p st → racing upload l k m' true c n p st.
Proof.
  intros [n0 hist ph Hwf Hh Hn Hv | n0 hist r url obs b Hwf Hh Hn Hb].
  - constructor; [done|done| |by right].
    destruct Hn as [->|(_ & [=] & _)]. by left.
  - by constructor.
Qed.

Lemma racing_done_any l k m oc m' oc' c n p b :
  racing upload l k m oc c n p (Some b) →
  racing upload l k m' oc' c n p (Some b).
Proof.
  intros H. inversion H as [|n0 hist r url obs b0 Hwf Hh Hn Hb]; subst.
  by constructor.
Qed.

Lemma race_store_sym k m na nb sa sb :
  race_store k m na nb sa sb → race_store k m nb na sb sa.
Proof.
  unfold race_store. destruct sa, sb; try done.
  intros (Hne & Hn & Hc). repeat split; [congruence|lia|done].
Qed.

(** One interaction of one of the two, seen from both. *)
Lemma race_step_one l l' k w c c' n n' p p' st st' :
  (2 ≤ maxAttempts)%nat →
  occurrences k (categories l) = 1%nat →
  (∀ img owner, asset l = Some img → is_Some (upload img owner)) →
  racing upload l k (w_docs w) (settled_flag st') c n p st →
  racing upload l' k (w_docs w) (settled_flag st) c' n' p' st' →
  race_store k (w_docs w) n n' st st' →
  ∃ n1 p1 st1,
    racing upload l k (w_docs (client_step w c).1) (settled_flag st')
      (client_step w c).2 n1 p1 st1 ∧
    racing upload l' k (w_docs (client_step w c).1) (settled_flag st1)
      c' n' p' st' ∧
    race_store k (w_docs (client_step w c).1) n1 n' st1 st' ∧
    (p1 ≤ p - 1)%nat.
Proof.
  intros Hmax Hocc Hup Hr Hr' Hs.
  destruct (racing_step l k w (settled_flag st') c n p st Hmax Hocc Hup Hr)
    as (n1 & p1 & st1 & Hr1 & Hp1 & Hcase).
  { intros ->. unfold race_store in Hs. destruct st' as [b|]; cbn; [|done].
    apply Hs. }
  exists n1, p1, st1. split; [done|]. split; [|split; [|done]].
  - destruct Hcase as [(Hd & -> & _)|(-> & -> & _)].
    + by rewrite Hd.
    + destruct st' as [b|]; cbn in *.
      * by eapply racing_done_any.
      * by eapply racing_other_committed.
  - destruct Hcase as [(Hd & -> & Hn1)|(-> & -> & Hn2 & Hn1 & Hc)].
    + rewrite Hd. destruct st as [a|]; [by rewrite Hn1|].
      unfold race_store in *. by destruct st'.
    + unfold race_store in *. destruct st' as [b|]; cbn in *.
      * destruct Hs as (-> & -> & _). repeat split; [done|lia|done].
      * repeat split; [by apply Hn1|done].
Qed.

Lemma sys_step_pair_0 w cA cB :
  sys_step (mkSys w [cA; cB]) (LClient 0)
  = mkSys (client_step w cA).1 [(client_step w cA).2; cB].
Proof. cbn. by destruct (client_step w cA). Qed.

Lemma sys_step_pair_1 w cA cB :
  sys_step (mkSys w [cA; cB]) (LClient 1)
  = mkSys (client_step w cB).1 [cA; (client_step w cB).2].
Proof. cbn. by destruct (client_step w cB). Qed.

Lemma sys_step_pair_other w (cA cB : Client) i :
  sys_step (mkSys w [cA; cB]) (LClient (S (S i))) = mkSys w [cA; cB].
Proof. reflexivity. Qed.

Lemma race_step lA lB k s pa pb i :
  (2 ≤ maxAttempts)%nat →
  occurrences k (categories lA) = 1%nat →
  occurrences k (categories lB) = 1%nat →
  (∀ img owner, asset lA = Some img → is_Some (upload img owner)) →
  (∀ img owner, asset lB = Some img → is_Some (upload img owner)) →
  race_inv upload lA lB k s pa pb →
  ∃ pa' pb',
    race_inv upload lA lB k (sys_step s (LClient i)) pa' pb' ∧
    (pa' ≤ pa - if decide (i = 0%nat) then 1 else 0)%nat ∧
    (pb' ≤ pb - if decide (i = 1%nat) then 1 else 0)%nat.
Proof.
  intros Hmax HoA HoB HuA HuB (cA & cB & na & nb & sa & sb & Hcl & HA & HB & Hs).
  destruct s as [w cl]. cbn [clients world] in *. subst cl.
  destruct i as [|[|i]].
  - destruct (race_step_one lA lB k w cA cB na nb pa pb sa sb
                Hmax HoA HuA HA HB Hs) as (n1 & p1 & st1 & H1 & H2 & H3 & Hp).
    rewrite sys_step_pair_0. exists p1, pb. split; [|split; repeat case_decide; lia].
    exists (client_step w cA).2, cB, n1, nb, st1, sb. done.
  - apply race_store_sym in Hs.
    destruct (race_step_one lB lA k w cB cA nb na pb pa sb sa
                Hmax HoB HuB HB HA Hs) as (n1 & p1 & st1 & H1 & H2 & H3 & Hp).
    rewrite sys_step_pair_1. exists pa, p1. split; [|split; repeat case_decide; lia].
    exists cA, (client_step w cB).2, na, n1, sa, st1.
    split; [done|]. split; [done|]. split; [done|]. by apply race_store_sym.
  - rewrite sys_step_pair_other. exists pa, pb. split; [|split; repeat case_decide; lia].
    by exists cA, cB, na, nb, sa, sb.
Qed.

Lemma turns_client_cons i j (ids : list nat) :
  turns i (LClient <$> (j :: ids))
  = ((if decide (j = i) then 1 else 0) + turns i (LClient <$> ids))%nat.
Proof.
  cbn [fmap list_fmap]. rewrite turns_cons.
  destruct (decide (j = i)) as [->|Hne].
  - by rewrite decide_True.
  - rewrite decide_False; [done|]. by intros [= ->].
Qed.

Lemma race_exec lA lB k (ids : list nat) s pa pb :
  (2 ≤ maxAttempts)%nat →
  occurrences k (categories lA) = 1%nat →
  occurrences k (categories lB) = 1%nat →
  (∀ img owner, asset lA = Some img → is_Some (upload img owner)) →
  (∀ img owner, asset lB = Some img → is_Some (upload img owner)) →
  race_inv upload lA lB k s pa pb →
  ∃ pa' pb',
    race_inv upload lA lB k (exec (LClient <$> ids) s) pa' pb' ∧
    (pa' ≤ pa - turns 0 (LClient <$> ids))%nat ∧
    (pb' ≤ pb - turns 1 (LClient <$> ids))%nat.
Proof.
  intros Hmax HoA HoB HuA HuB. revert s pa pb.
  induction ids as [|i ids IH]; intros s pa pb Hinv.
  - exists pa, pb. split; [done|]. unfold turns. cbn. lia.
  - destruct (race_step lA lB k s pa pb i Hmax HoA HoB HuA HuB Hinv)
      as (pa1 & pb1 & Hinv1 & Hpa & Hpb).
    destruct (IH _ _ _ Hinv1) as (pa' & pb' & Hinv' & Hpa' & Hpb').
    exists pa', pb'. split; [done|]. rewrite !turns_client_cons.
    destruct (decide (i = 0%nat)), (decide (i = 1%nat)); lia.
Qed.

Lemma potential_first l : potential l 1 PhNew = (2 * steps_needed l)%nat.
Proof. unfold potential. cbn [remaining]. rewrite decide_True by done. lia. Qed.

Lemma race_inv_start lA lB k w0 :
  w_docs w0 !! categoryRef k = None →
  race_inv upload lA lB k (publish2 lA lB w0)
    (2 * steps_needed lA) (2 * steps_needed lB).
Proof.
  intros Hk. rewrite <- !potential_first.
  exists (in_flight lA 1 [] PhNew), (in_flight lB 1 [] PhNew), 1%nat, 1%nat,
    None, None.
  split; [done|].
  split; [|split; [|done]]; (constructor; [done|apply hist_ok_first|by left|by left]).
Qed.

Lemma racing_zero l k m oc c n st :
  racing upload l k m oc c n 0 st → c_result c = Some (Resolved tt).
Proof.
  intros H. remember 0%nat as p eqn:Hp.
  destruct H as [n hist ph Hwf Hh Hn Hv | n hist r url obs b Hwf Hh Hn Hb];
    [|done].
  pose proof (remaining_pos l ph). unfold potential in Hp. lia.
Qed.

Lemma racing_result l k m oc c n p st :
  occurrences k (categories l) = 1%nat →
  racing upload l k m oc c n p st → c_result c ≠ None →
  ∃ b,
    st = Some b ∧ c_result c = Some (Resolved tt) ∧ c_attempt c = n ∧
    (if b then WUpdate (categoryRef k) incrementOne
     else WSet (categoryRef k) countOne) ∈ c_writes c ∧
    (b = true → EvGet (categoryRef k) false ∈ c_trace c → n = 2%nat).
Proof.
  intros Hocc H Hres.
  destruct H as [n hist ph Hwf Hh Hn Hv | n hist r url obs b Hwf Hh Hn Hb];
    [done|].
  destruct Hwf as (Hr & Hu & Hlen & _).
  assert (Hk : k ∈ categories l) by (apply occurrences_elem; lia).
  apply list_elem_of_lookup in Hk as [i Hi].
  destruct (lookup_lt_is_Some_2 obs i) as [o Ho].
  { rewrite Hlen. by eapply lookup_lt_Some. }
  exists b. split; [done|]. split; [done|]. split; [done|]. split.
  - cbn [c_writes settle in_flight]. rewrite writes_of_full by done.
    apply elem_of_cons. right. apply list_elem_of_lookup. exists i.
    rewrite (cat_writes_lookup _ _ _ _ _ Hi Ho). unfold cat_write.
    by rewrite (Hb i o Hi Ho).
  - intros -> Hin. destruct Hh as (Hn1 & _ & _ & _ & _ & Hnil).
    destruct (decide (n = 1%nat)) as [->|Hne]; [|lia].
    exfalso. rewrite resolved_trace, (Hnil eq_refl) in Hin by done.
    cbn [app] in Hin.
    apply elem_of_cons in Hin as [[=]|Hin].
    apply elem_of_cons in Hin as [[=]|Hin].
    apply elem_of_app in Hin as [Hin|Hin].
    { unfold upload_trace in Hin. destruct url, (image l); set_solver. }
    apply elem_of_app in Hin as [Hin|Hin].
    + apply list_elem_of_lookup in Hin as [j Hj]. unfold gets_trace in Hj.
      apply lookup_zip_with_Some in Hj as (o' & x & [= <- Hf] & Ho' & Hx).
      unfold categoryRefs in Hx. rewrite list_lookup_fmap in Hx.
      destruct (categories l !! j) as [c'|] eqn:Hj; [|done].
      injection Hx as ->.
      rewrite (Hb j o' Hj Ho') in Hf. done.
    + apply elem_of_cons in Hin as [[=]|Hin].
      apply elem_of_app in Hin as [Hin|Hin]; [|set_solver].
      apply ev_of_write_write in Hin. done.
Qed.

(** C2: two publications called together that both name a category with
    no aggregate yet.  However their interactions with the store are
    interleaved, with at least two attempts allowed and uploads that
    succeed: as soon as each has had twice the interactions of one
    attempt both are settled; and once both are settled, both have
    resolved, the aggregate counts two, one of them created it and the
    other incremented it, the two took at most three attempts together,
    and the incrementing one, if it ever saw the aggregate absent, was
    made to retry. *)
Theorem concurrent_publish_counts_both lA lB w0 k (ids : list nat) :
  (2 ≤ maxAttempts)%nat →
  occurrences k (categories lA) = 1%nat →
  occurrences k (categories lB) = 1%nat →
  w_docs w0 !! categoryRef k = None →
  (∀ img owner, asset lA = Some img → is_Some (upload img owner)) →
  (∀ img owner, asset lB = Some img → is_Some (upload img owner)) →
  let s := exec (LClient <$> ids) (publish2 lA lB w0) in
  ((2 * steps_needed lA ≤ turns 0 (LClient <$> ids))%nat →
   (2 * steps_needed lB ≤ turns 1 (LClient <$> ids))%nat →
   result_of s 0 ≠ None ∧ result_of s 1 ≠ None) ∧
  (result_of s 0 ≠ None → result_of s 1 ≠ None →
   result_of s 0 = Some (Resolved tt) ∧
   result_of s 1 = Some (Resolved tt) ∧
   countActiveListings (w_docs (world s)) k = Some (VNum 2) ∧
   ∃ cA cB,
     clients s = [cA; cB] ∧
     (c_attempt cA + c_attempt cB ≤ 3)%nat ∧
     ((WSet (categoryRef k) countOne ∈ c_writes cA ∧
       WUpdate (categoryRef k) incrementOne ∈ c_writes cB ∧
       (EvGet (categoryRef k) false ∈ c_trace cB → c_attempt cB = 2%nat)) ∨
      (WSet (categoryRef k) countOne ∈ c_writes cB ∧
       WUpdate (categoryRef k) incrementOne ∈ c_writes cA ∧
       (EvGet (categoryRef k) false ∈ c_trace cA → c_attempt cA = 2%nat)))).
Proof.
  intros Hmax HoA HoB Hk HuA HuB s.
  destruct (race_exec lA lB k ids _ _ _ Hmax HoA HoB HuA HuB
              (race_inv_start lA lB k w0 Hk))
    as (pa & pb & (cA & cB & na & nb & sa & sb & Hcl & HA & HB & Hs) & Hpa & Hpb).
  fold s in Hcl, HA, HB, Hs. unfold result_of. rewrite Hcl.
  change ([cA; cB] !! 0%nat) with (Some cA).
  change ([cA; cB] !! 1%nat) with (Some cB).
  cbn [mbind option_bind]. split.
  - intros HtA HtB.
    assert (pa = 0%nat) as -> by lia. assert (pb = 0%nat) as -> by lia.
    rewrite (racing_zero _ _ _ _ _ _ _ HA), (racing_zero _ _ _ _ _ _ _ HB).
    done.
  - intros HrA HrB.
    destruct (racing_result _ _ _ _ _ _ _ _ HoA HA HrA)
      as (a & -> & HresA & HnA & HwA & HgA).
    destruct (racing_result _ _ _ _ _ _ _ _ HoB HB HrB)
      as (b & -> & HresB & HnB & HwB & HgB).
    destruct Hs as (Hab & Hn & Hc).
    split; [done|]. split; [done|]. split; [done|].
    exists cA, cB. split; [done|]. split; [lia|].
    destruct a, b; try done.
    + right. rewrite HnA. auto.
    + left. rewrite HnB. auto.
Qed.

(** *** Further properties of a publication *)

Lemma publishing_quiet_docs l sched w we c :
  publishing l c →
  w_docs we = w_docs w → w_clock we = w_clock w →
  result_of (exec sched (mkSys w [c])) 0 ≠ Some (Resolved tt) →
  w_docs (world (exec sched (mkSys w [c])))
  = w_docs (world (exec sched (mkSys we []))).
Proof.
  revert w we c. induction sched as [|[[|i]|ws] sched IH];
    intros w we c Hp Hd Hc Hres.
  - done.
  - rewrite !exec_cons, sys_step_single, sys_step_none.
    rewrite exec_cons, sys_step_single in Hres.
    destruct (publishing_step l w c Hp) as [Hp' [Hq|Hcommit]].
    + destruct Hq as (Hd' & Hc' & _). apply IH; [done|congruence..|done].
    + destruct Hcommit as (_ & _ & n & hist & r & url & obs & _ & _ & Hc' & _).
      exfalso. apply Hres.
      rewrite (exec_settled _ _ _ (Resolved tt)) by (by rewrite Hc').
      unfold result_of. cbn. by rewrite Hc'.
  - rewrite !exec_cons, sys_step_single_other, sys_step_none.
    rewrite exec_cons, sys_step_single_other in Hres. by apply IH.
  - rewrite !exec_cons. rewrite exec_cons in Hres.
    cbn [sys_step world clients] in *.
    destruct (env_commit_eq we w ws Hd Hc) as [Hd' Hc']. by apply IH.
Qed.

(** X1: all or nothing.  However the publication's interactions and the
    other parties' commits are scheduled, as long as the publication has
    not resolved (it is in flight, was rejected or gave up) the documents
    of the store are those the other parties alone have made. *)
Theorem publish_all_or_nothing l w0 sched :
  result_of (exec sched (publish l w0)) 0 ≠ Some (Resolved tt) →
  w_docs (world (exec sched (publish l w0)))
  = w_docs (world (exec sched (mkSys w0 []))).
Proof.
  intros Hres. apply (publishing_quiet_docs l); [apply publishing_start|done..].
Qed.


Lemma client_step_attempt w c :
  (c_attempt (client_step w c).2 ≤ max (c_attempt c) maxAttempts)%nat.
Proof.
  unfold client_step. destruct (c_result c); [cbn; lia|].
  destruct (c_prog c) as [a|e|coll k|img owner k|r k|r d k|r u k]; cbn;
    try lia.
  - unfold commit. destruct (validate _ _).
    + destruct (apply_writes _ _ _); cbn; lia.
    + destruct (c_attempt c <? maxAttempts)%nat eqn:Hlt; cbn; [|lia].
      apply Nat.ltb_lt in Hlt. lia.
  - destruct (upload img owner); cbn; lia.
  - destruct (c_writes c); cbn; lia.
Qed.

Lemma exec_attempt_bound sched w c c' :
  (c_attempt c ≤ max 1 maxAttempts)%nat →
  clients (exec sched (mkSys w [c])) = [c'] →
  (c_attempt c' ≤ max 1 maxAttempts)%nat.
Proof.
  revert w c. induction sched as [|[[|i]|ws] sched IH]; intros w c Hn Hcl.
  - by injection Hcl as <-.
  - rewrite exec_cons, sys_step_single in Hcl.
    apply (IH (client_step w c).1 (client_step w c).2); [|done].
    pose proof (client_step_attempt w c). lia.
  - rewrite exec_cons, sys_step_single_other in Hcl. by apply (IH w c).
  - rewrite exec_cons in Hcl. cbn [sys_step world clients] in Hcl.
    by apply (IH (env_commit w ws) c).
Qed.

(** X3: giving up.  A publication rejected as aborted has begun exactly as
    many attempts as the store allows (one, if it allows none), has asked
    for a commit in each, and has left the documents of the store as the
    other parties alone made them. *)
Theorem publish_gives_up l w0 sched c :
  clients (exec sched (publish l w0)) = [c] →
  c_result c = Some (Rejected Aborted) →
  c_attempt c = max 1 maxAttempts ∧
  count_ev is_attempt_event (c_trace c) = c_attempt c ∧
  count_ev is_commit_event (c_trace c) = c_attempt c ∧
  w_docs (world (exec sched (publish l w0)))
  = w_docs (world (exec sched (mkSys w0 []))).
Proof.
  intros Hcl Hp.
  assert (Hb : (c_attempt c ≤ max 1 maxAttempts)%nat).
  { apply (exec_attempt_bound sched w0 (uploadListing l)); [cbn; lia|done]. }
  assert (Hq : w_docs (world (exec sched (publish l w0)))
             = w_docs (world (exec sched (mkSys w0 [])))).
  { apply (publishing_quiet_docs l); [apply publishing_start|done..|].
    unfold result_of. fold (publish l w0). rewrite Hcl. cbn. by rewrite Hp. }
  destruct (exec_publish l sched w0) as (w & c' & He & Hpub).
  rewrite He in Hcl. injection Hcl as ->.
  destruct Hpub as [n hist ph Hwf Hh | n hist r url obs Hwf Hh
                   | n hist r img Hwf Hh | n hist r url obs Hwf Hh Hn];
    cbn in Hp; try done.
  cbn [c_attempt settle in_flight] in *.
  destruct Hwf as (Hr & Hu & Hlen & _).
  destruct Hh as (Hn1 & Ha & Hd & Hup & Hc & _).
  split; [lia|]. split; [|split; [|done]].
  - cbn [c_trace settle in_flight trace_of].
    rewrite !count_ev_app, !count_ev_cons, !count_ev_app.
    rewrite !count_gets, !count_writes by (by intros []).
    rewrite !count_upload_trace_other by (by intros []).
    cbn. rewrite Ha. lia.
  - cbn [c_trace settle in_flight trace_of].
    rewrite !count_ev_app, !count_ev_cons, !count_ev_app.
    rewrite !count_gets, !count_writes by (by intros []).
    rewrite !count_upload_trace_other by (by intros []).
    cbn. rewrite Hc. lia.
Qed.

Lemma resolved_step l w n hist r url obs :
  length obs = length (categories l) →
  c_result (client_step w (in_flight l n hist
              (PhWrite r url obs (length (categories l))))).2
  = Some (Resolved tt) →
  validate (w_docs w)
    (reads_of l (PhWrite r url obs (length (categories l)))) = true ∧
  apply_writes (S (w_clock w))
    (writes_of l (PhWrite r url obs (length (categories l)))) (w_docs w)
  = Some (w_docs (client_step w (in_flight l n hist
                    (PhWrite r url obs (length (categories l))))).1).
Proof.
  intros Hlen. rewrite step_commit by done. unfold commit.
  cbn [c_reads c_writes c_attempt in_flight].
  destruct (validate (w_docs w) _); [|by destruct (n <? maxAttempts)%nat].
  by destruct (apply_writes _ _ _).
Qed.

Lemma apply_incrementOne_other d f :
  f ≠ "countActiveListings" → apply_update incrementOne d !! f = d !! f.
Proof.
  intros Hf. unfold apply_update, incrementOne, apply_field. cbn.
  destruct (d !! "countActiveListings") as [[]|]; cbn;
    by rewrite lookup_insert_ne.
Qed.

Lemma foldl_cat_writes_present_fields t c cats obs v d :
  length obs = length cats →
  (∀ i o, cats !! i = Some c → obs !! i = Some o → found o = true) →
  ∃ v' d',
    foldl (write_at t (categoryRef c)) (Some (v, d))
      (zip_with (λ o category, cat_write category o) obs cats)
    = Some (v', d') ∧
    ∀ f, f ≠ "countActiveListings" → d' !! f = d !! f.
Proof.
  revert obs v d. induction cats as [|c' cats IH]; intros obs v d Hlen H.
  - destruct obs; [|done]. cbn. eauto.
  - destruct obs as [|o obs]; [done|]. cbn [zip_with foldl].
    rewrite write_at_cat_write.
    assert (Hlen' : length obs = length cats) by (cbn in Hlen; lia).
    assert (H' : ∀ i o, cats !! i = Some c → obs !! i = Some o → found o = true)
      by (intros i o' Hc Ho; apply (H (S i) o'); done).
    destruct (decide (c' = c)) as [->|Hne]; [|by apply IH].
    assert (Hf : found o = true) by (apply (H 0%nat o); done).
    rewrite Hf.
    destruct (IH obs t (apply_update incrementOne d) Hlen' H')
      as (v' & d' & -> & Hd').
    exists v', d'. split; [done|]. intros f Hne.
    by rewrite Hd', apply_incrementOne_other.
Qed.

Lemma write_at_other t ρ cur w :
  writeRef w ≠ ρ → write_at t ρ cur w = cur.
Proof. intros H. unfold write_at. by rewrite decide_False. Qed.

Lemma occurrences_zero c cats : c ∉ cats → occurrences c cats = 0%nat.
Proof.
  intros Hn. destruct (occurrences c cats) eqn:E; [done|].
  exfalso. apply Hn, occurrences_elem. lia.
Qed.

(** The commit of a publication that resolves, with what it read and the
    documents before and after. *)
Lemma publish_commit l w0 sched :
  result_of (exec sched (publish l w0)) 0 = Some (Resolved tt) →
  ∃ sched1 sched2 w1 n hist r url obs,
    sched = sched1 ++ LClient 0 :: sched2 ∧
    w_docs (world (exec sched1 (mkSys w0 []))) = w_docs w1 ∧
    world (exec (sched1 ++ [LClient 0]) (publish l w0))
    = (client_step w1 (in_flight l n hist
         (PhWrite r url obs (length (categories l))))).1 ∧
    clients (exec sched (publish l w0))
    = [settle (in_flight l n hist (PhWrite r url obs (length (categories l))))
         (Resolved tt) [EvCommit true]] ∧
    length obs = length (categories l) ∧
    validate (w_docs w1)
      (reads_of l (PhWrite r url obs (length (categories l)))) = true ∧
    apply_writes (S (w_clock w1))
      (writes_of l (PhWrite r url obs (length (categories l)))) (w_docs w1)
    = Some (w_docs (client_step w1 (in_flight l n hist
                      (PhWrite r url obs (length (categories l))))).1) ∧
    commit_effect l r url (S (w_clock w1)) (w_docs w1)
      (w_docs (client_step w1 (in_flight l n hist
                 (PhWrite r url obs (length (categories l))))).1).
Proof.
  intros Hres.
  destruct (publish_split l sched w0 Hres)
    as (s1 & s2 & w1 & c1 & -> & Hd & Hc & Hafter & Hfin).
  destruct Hc as (_ & _ & n & hist & r & url & obs & Hlen & -> & Hc' & He).
  destruct (resolved_step l w1 n hist r url obs Hlen) as [Hv Ha].
  { by rewrite Hc'. }
  exists s1, s2, w1, n, hist, r, url, obs.
  split; [done|]. split; [done|]. split; [by rewrite Hafter|].
  split; [by rewrite Hfin, Hc'|]. done.
Qed.

(** X4: what a publication writes.  The commit of a publication that
    resolves changes the new listing document and the aggregates of the
    categories named, and nothing else: every other document, in whatever
    collection, keeps its data and its version. *)
Theorem publish_touches_only l w0 sched :
  result_of (exec sched (publish l w0)) 0 = Some (Resolved tt) →
  ∃ sched1 sched2 id c,
    sched = sched1 ++ LClient 0 :: sched2 ∧
    clients (exec sched (publish l w0)) = [c] ∧
    EvNewDoc ("listings", id) ∈ c_trace c ∧
    let before := w_docs (world (exec sched1 (mkSys w0 []))) in
    let after := w_docs (world (exec (sched1 ++ [LClient 0]) (publish l w0))) in
    ∀ ρ : DocRef,
      ρ ≠ ("listings", id) → ρ ∉ categoryRefs l → after !! ρ = before !! ρ.
Proof.
  intros Hres.
  destruct (publish_commit l w0 sched Hres)
    as (s1 & s2 & w1 & n & hist & r & url & obs & -> & Hd & Hafter & Hcl
        & Hlen & Hv & Ha & (Hr & _ & _ & Hother)).
  destruct r as [coll id]. cbn in Hr. subst coll.
  eexists s1, s2, id, _. split; [done|]. split; [exact Hcl|]. split.
  - cbn. set_solver.
  - cbn zeta. rewrite Hafter, Hd. exact Hother.
Qed.

(** X5: counts only grow.  The commit of a publication that resolves
    leaves every aggregate that had a numeric count at that count plus
    the number of times the listing names its category: unchanged when it
    is not named, never lower. *)
Theorem publish_counts_grow l w0 sched :
  result_of (exec sched (publish l w0)) 0 = Some (Resolved tt) →
  ∃ sched1 sched2,
    sched = sched1 ++ LClient 0 :: sched2 ∧
    let before := w_docs (world (exec sched1 (mkSys w0 []))) in
    let after := w_docs (world (exec (sched1 ++ [LClient 0]) (publish l w0))) in
    ∀ c m,
      countActiveListings before c = Some (VNum m) →
      countActiveListings after c
      = Some (VNum (m + Z.of_nat (occurrences c (categories l)))) ∧
      (c ∉ categories l → countActiveListings after c = Some (VNum m)).
Proof.
  intros Hres.
  destruct (publish_commit l w0 sched Hres)
    as (s1 & s2 & w1 & n & hist & r & url & obs & -> & Hd & Hafter & Hcl
        & Hlen & Hv & Ha & (Hr & _ & Hcount & Hother)).
  exists s1, s2. split; [done|]. cbn zeta. rewrite Hafter, Hd.
  intros c m Hm.
  assert (Hout : c ∉ categories l →
            countActiveListings
              (w_docs (client_step w1 (in_flight l n hist
                 (PhWrite r url obs (length (categories l))))).1) c
            = Some (VNum m)).
  { intros Hnin. unfold countActiveListings, snapshot in *.
    rewrite Hother; [done| |].
    - intros E. rewrite <- E in Hr. done.
    - unfold categoryRefs. intros (c' & E & Hin)%list_elem_of_fmap.
      apply categoryRef_inj in E as <-. done. }
  split; [|done].
  destruct (decide (c ∈ categories l)) as [Hin|Hnin].
  - rewrite (Hcount c Hin). unfold countActiveListings, snapshot in Hm.
    destruct (w_docs w1 !! categoryRef c) as [[v d]|]; [|done].
    cbn in Hm. cbn. by rewrite Hm, bump_n_num.
  - rewrite (Hout Hnin), (occurrences_zero _ _ Hnin). do 2 f_equal. lia.
Qed.

(** X6: the other fields of an aggregate.  The commit of a publication
    that resolves stores, for a category named whose aggregate did not
    exist, the document [{countActiveListings: 1}] and nothing more; of an
    aggregate that existed it changes [countActiveListings] only. *)
Theorem publish_keeps_aggregate_fields l w0 sched :
  result_of (exec sched (publish l w0)) 0 = Some (Resolved tt) →
  ∃ sched1 sched2,
    sched = sched1 ++ LClient 0 :: sched2 ∧
    let before := w_docs (world (exec sched1 (mkSys w0 []))) in
    let after := w_docs (world (exec (sched1 ++ [LClient 0]) (publish l w0))) in
    ∀ c, c ∈ categories l →
      (before !! categoryRef c = None →
       snapshot after (categoryRef c)
       = Some {["countActiveListings" := VNum 1]}) ∧
      (∀ v (d : DocData),
         before !! categoryRef c = Some (v, d) →
         ∃ d', snapshot after (categoryRef c) = Some d' ∧
               ∀ f, f ≠ "countActiveListings" → d' !! f = d !! f).
Proof.
  intros Hres.
  destruct (publish_commit l w0 sched Hres)
    as (s1 & s2 & w1 & n & hist & r & url & obs & -> & Hd & Hafter & Hcl
        & Hlen & Hv & Ha & (Hr & _ & _ & _)).
  exists s1, s2. split; [done|]. cbn zeta. rewrite Hafter, Hd.
  pose proof (reads_valid _ _ _ _ _ _ Hv) as Hrv.
  intros c Hin. unfold snapshot.
  rewrite (apply_writes_lookup _ _ _ _ (categoryRef c) Ha).
  rewrite writes_of_full by done. cbn [foldl].
  rewrite (write_at_other _ _ _ (WSet r _))
    by (cbn; intros E; rewrite E in Hr; done).
  unfold cat_writes. split.
  - intros Hnone. rewrite foldl_cat_writes_absent; [|done|].
    + pose proof (occurrences_pos _ _ Hin).
      by destruct (occurrences c (categories l)); [lia|].
    + intros i o Hi Ho. rewrite (found_version _ _ _ (Hrv i c o Hi Ho)).
      by rewrite Hnone.
  - intros v d Hsome.
    destruct (foldl_cat_writes_present_fields (S (w_clock w1)) c
                (categories l) obs v d Hlen) as (v' & d' & Hf & Hd').
    { intros i o Hi Ho. rewrite (found_version _ _ _ (Hrv i c o Hi Ho)).
      by rewrite Hsome. }
    exists d'. rewrite Hsome, Hf. done.
Qed.

(** *** What a publication alone leaves in the store *)

Lemma listingData_fields l id url :
  listingData l id url !! "sellerId" = Some (VStr (sellerId l)) ∧
  listingData l id url !! "title" = Some (VStr (title l)) ∧
  listingData l id url !! "price" = Some (VNum (price l)) ∧
  listingData l id url !! "datePosted" = Some (VDate (datePosted l)) ∧
  listingData l id url !! "description" = Some (VStr (description l)) ∧
  listingData l id url !! "categories" = Some (VArr (categories l)) ∧
  listingData l id url !! "isListingActive" = Some (VBool (isListingActive l)).
Proof.
  unfold listingData. destruct url as [u|]; [destruct (truthy u)|];
    repeat split;
    repeat (rewrite lookup_insert_ne by done); apply lookup_insert_eq.
Qed.

Lemma listingData_imagePath l id url :
  listingData l id url !! "imagePath"
  = VStr <$> (url ≫= λ u, if truthy u then Some u else None).
Proof.
  unfold listingData.
  destruct url as [u|]; [destruct (truthy u) eqn:T|]; cbn; rewrite ?T; cbn.
  - apply lookup_insert_eq.
  - by repeat (rewrite lookup_insert_ne by done).
  - by repeat (rewrite lookup_insert_ne by done).
Qed.

Lemma url_ok_stored l r url :
  url_ok l r url →
  (url ≫= λ u, if truthy u then Some u else None)
  = stored_imagePath upload l r.2.
Proof.
  unfold url_ok, stored_imagePath. destruct (asset l) as [img|]; cbn.
  - by intros [_ ->].
  - by intros ->.
Qed.

(** X7: a listing reads back as it was given.  After a publication that
    ran alone and whose upload, if any, succeeded, [getDocument] of the
    listing's path resolves to a document that carries the id drawn as
    [listingId] and each field of the argument unchanged. *)
Theorem published_listing_reads_back l w :
  (∀ img, asset l = Some img → is_Some (upload img (gen_id (w_draws w)))) →
  let s := run_alone (steps_needed l) w (uploadListing l) in
  let id := gen_id (w_draws w) in
  ∃ d,
    getDocument (mkBackend (w_docs (world s)) None) ("listings", id)
    = Resolved (Some d) ∧
    d !! "listingId" = Some (VStr id) ∧
    d !! "sellerId" = Some (VStr (sellerId l)) ∧
    d !! "title" = Some (VStr (title l)) ∧
    d !! "price" = Some (VNum (price l)) ∧
    d !! "datePosted" = Some (VDate (datePosted l)) ∧
    d !! "description" = Some (VStr (description l)) ∧
    d !! "categories" = Some (VArr (categories l)) ∧
    d !! "isListingActive" = Some (VBool (isListingActive l)).
Proof.
  intros Hup. destruct (run_alone_publishes l w 0 Hup)
    as (url & m' & _ & (_ & Hdoc & _) & Hrun).
  rewrite Nat.add_0_r in Hrun. cbn zeta. rewrite Hrun.
  exists (listingData l (gen_id (w_draws w)) url). split.
  - unfold getDocument, getDoc, snapshot. cbn. by rewrite Hdoc.
  - split; [apply listingData_id|apply listingData_fields].
Qed.

(** X8: when a listing is stored with an image.  After a publication that
    ran alone, the listing has an [imagePath] exactly when it was given a
    non-empty [image] and the uploader answered with a non-empty URL, and
    then it is that URL; with no image, or the empty string for one, the
    uploader is never called and the listing has no [imagePath]. *)
Theorem published_imagePath l w :
  (∀ img, asset l = Some img → is_Some (upload img (gen_id (w_draws w)))) →
  let s := run_alone (steps_needed l) w (uploadListing l) in
  let id := gen_id (w_draws w) in
  ∃ d c,
    snapshot (w_docs (world s)) ("listings", id) = Some d ∧
    clients s = [c] ∧
    d !! "imagePath" = VStr <$> stored_imagePath upload l id ∧
    (image l = None ∨ image l = Some EmptyString →
     d !! "imagePath" = None ∧ count_ev is_upload_event (c_trace c) = 0%nat).
Proof.
  intros Hup. destruct (run_alone_publishes l w 0 Hup)
    as (url & m' & Hu & (_ & Hdoc & _) & Hrun).
  rewrite Nat.add_0_r in Hrun. cbn zeta. rewrite Hrun.
  eexists (listingData l (gen_id (w_draws w)) url), _.
  split; [unfold snapshot; cbn; by rewrite Hdoc|]. split; [reflexivity|].
  rewrite listingData_imagePath, (url_ok_stored l _ url Hu). split; [done|].
  intros Himg.
  assert (Ha : asset l = None).
  { unfold asset. by destruct Himg as [-> | ->]. }
  unfold stored_imagePath. rewrite Ha. split; [done|].
  unfold url_ok in Hu. rewrite Ha in Hu. subst url.
  cbn [c_trace settle in_flight trace_of upload_trace].
  rewrite !count_ev_app, !count_ev_cons, !count_ev_app.
  rewrite !count_gets, !count_writes by (by intros []). done.
Qed.

(** X9: no category.  A publication with an empty [categories] array
    that runs alone resolves and changes the store by the listing
    document alone. *)
Theorem publish_without_categories l w :
  categories l = [] →
  (∀ img, asset l = Some img → is_Some (upload img (gen_id (w_draws w)))) →
  let s := run_alone (steps_needed l) w (uploadListing l) in
  let id := gen_id (w_draws w) in
  result_of s 0 = Some (Resolved tt) ∧
  ∃ d,
    d !! "categories" = Some (VArr []) ∧
    w_docs (world s) = <[("listings", id) := (S (w_clock w), d)]> (w_docs w).
Proof.
  intros Hcat Hup. destruct (run_alone_publishes l w 0 Hup)
    as (url & m' & _ & (_ & Hdoc & _ & Hother) & Hrun).
  rewrite Nat.add_0_r in Hrun. cbn zeta. rewrite Hrun.
  split; [done|]. exists (listingData l (gen_id (w_draws w)) url). split.
  - destruct (listingData_fields l (gen_id (w_draws w)) url)
      as (_ & _ & _ & _ & _ & Hc & _). by rewrite Hc, Hcat.
  - cbn [world w_docs]. apply map_eq. intros ρ.
    destruct (decide (ρ = ("listings", gen_id (w_draws w)))) as [->|Hne].
    + by rewrite lookup_insert_eq.
    + rewrite lookup_insert_ne by done. apply Hother; [done|].
      unfold categoryRefs. rewrite Hcat. cbn. set_solver.
Qed.

Lemma naming_cons c l ls :
  naming c (l :: ls)
  = ((if decide (c ∈ categories l) then 1 else 0) + naming c ls)%nat.
Proof. unfold naming. rewrite filter_cons. by case_decide. Qed.

Lemma run_alone_count l w c :
  NoDup (categories l) →
  (∀ img owner, asset l = Some img → is_Some (upload img owner)) →
  countActiveListings
    (w_docs (world (run_alone (steps_needed l) w (uploadListing l)))) c
  = if decide (c ∈ categories l)
    then Some (bump (countActiveListings (w_docs w) c))
    else countActiveListings (w_docs w) c.
Proof.
  intros Hnd Hup. destruct (run_alone_publishes l w 0)
    as (url & m' & _ & (Hr & _ & Hcount & Hother) & Hrun); [by eauto|].
  rewrite Nat.add_0_r in Hrun. rewrite Hrun.
  cbn [world w_docs]. case_decide as Hin.
  - rewrite (Hcount c Hin), occurrences_NoDup by done. apply count_after_one.
  - unfold countActiveListings, snapshot. rewrite Hother; [done|..].
    + by intros [= E].
    + unfold categoryRefs. intros (c' & E & Hin')%list_elem_of_fmap.
      apply categoryRef_inj in E as <-. done.
Qed.

Lemma bump_n_absent n :
  bump_n (S n) None = Some (VNum (Z.of_nat (S n))).
Proof. cbn [bump_n bump]. rewrite bump_n_num. do 2 f_equal. lia. Qed.

(** X10: the aggregate counts the listings.  After any number of
    publications made one after the other, nobody else writing, each with
    duplicate-free categories and an upload that succeeds, the count of an
    aggregate has been incremented once for each listing that names its
    category; starting with no aggregate, it is the number of those
    listings. *)
Theorem publish_all_counts ls w c :
  (∀ l, l ∈ ls → NoDup (categories l)) →
  (∀ l img owner, l ∈ ls → asset l = Some img → is_Some (upload img owner)) →
  countActiveListings (w_docs (publish_all gen_id upload maxAttempts ls w)) c
  = bump_n (naming c ls) (countActiveListings (w_docs w) c) ∧
  (countActiveListings (w_docs w) c = None → naming c ls ≠ 0%nat →
   countActiveListings (w_docs (publish_all gen_id upload maxAttempts ls w)) c
   = Some (VNum (Z.of_nat (naming c ls)))).
Proof.
  intros Hnd Hup.
  assert (H : countActiveListings
                (w_docs (publish_all gen_id upload maxAttempts ls w)) c
              = bump_n (naming c ls) (countActiveListings (w_docs w) c)).
  { revert w. induction ls as [|l ls IH]; intros w; [done|].
    cbn [publish_all]. rewrite IH.
    - rewrite run_alone_count, naming_cons.
      + by case_decide.
      + apply Hnd. set_solver.
      + intros img owner. apply Hup. set_solver.
    - intros l' Hl'. apply Hnd. set_solver.
    - intros l' img owner Hl'. apply Hup. set_solver. }
  split; [done|]. intros Hnone Hpos. rewrite H, Hnone.
  destruct (naming c ls); [done|]. apply bump_n_absent.
Qed.

Lemma category_code_inj (a b : CategoryType + BikeCategoryType) :
  category_code a = category_code b → a = b.
Proof.
  destruct a as [a|a], b as [b|b]; destruct a, b; cbn; intros H;
    first [reflexivity | discriminate H].
Qed.

(** X11: the codes of the category enumerations.  No two members of
    [CategoryType] and [BikeCategoryType] share a code, so a listing
    categorized by distinct members, published alone, leaves the aggregate
    of each of them at one more than it was (at one, where it had no
    count). *)
Theorem publish_enum_categories l w (cs : list (CategoryType + BikeCategoryType)) :
  categories l = category_code <$> cs → NoDup cs →
  (∀ img owner, asset l = Some img → is_Some (upload img owner)) →
  NoDup (categories l) ∧
  ∀ c, c ∈ cs →
    countActiveListings
      (w_docs (world (run_alone (steps_needed l) w (uploadListing l))))
      (category_code c)
    = Some (bump (countActiveListings (w_docs w) (category_code c))).
Proof.
  intros Hcat Hnd Hup.
  assert (Hnd' : NoDup (categories l)).
  { rewrite Hcat. apply NoDup_fmap_2; [|done].
    intros a b. apply category_code_inj. }
  split; [done|]. intros c Hc. rewrite run_alone_count by done.
  rewrite decide_True; [done|]. rewrite Hcat. by apply list_elem_of_fmap_2.
Qed.




End Publication.

(** ** The read façade *)

Section Facade.

Lemma reduce_docs_snoc docs (doc : string * DocData) :
  reduce_docs (docs ++ [doc]) = <[doc.1 := doc.2]> (reduce_docs docs).
Proof. unfold reduce_docs. by rewrite foldl_app. Qed.

(** With one data per id, the reduced object holds exactly the documents
    of the snapshot, each under its id. *)
Lemma reduce_docs_lookup (docs : list (string * DocData)) k d :
  (∀ k d d', (k, d) ∈ docs → (k, d') ∈ docs → d = d') →
  reduce_docs docs !! k = Some d ↔ (k, d) ∈ docs.
Proof.
  induction docs as [|[k' d'] docs IH] using rev_ind; intros Hfun.
  - cbn. rewrite lookup_empty. split; [done|]. by intros H%elem_of_nil.
  - rewrite reduce_docs_snoc. cbn [fst snd].
    destruct (decide (k' = k)) as [->|Hne].
    + rewrite lookup_insert_eq. split.
      * intros [= ->]. set_solver.
      * intros Hin. f_equal. apply (Hfun k); set_solver.
    + rewrite lookup_insert_ne by done. rewrite IH.
      * set_solver.
      * intros k0 d0 d0' H1 H2. apply (Hfun k0); set_solver.
Qed.

Lemma collection_docs_elem (m : Docs) coll k d :
  (k, d) ∈ collection_docs m coll ↔ snapshot m (coll, k) = Some d.
Proof.
  unfold collection_docs, snapshot. rewrite list_elem_of_omap. split.
  - intros ([[c i] [v dd]] & Hin & Hf). cbn in Hf.
    case_decide; [|done]. injection Hf as -> ->. subst c.
    apply elem_of_map_to_list in Hin. by rewrite Hin.
  - intros H. destruct (m !! (coll, k)) as [[v dd]|] eqn:E; [|done].
    injection H as ->. exists ((coll, k), (v, d)). split.
    + by apply elem_of_map_to_list.
    + cbn. by rewrite decide_True.
Qed.

Lemma query_docs_elem (m : Docs) coll p k d :
  (k, d) ∈ query_docs m coll p
  ↔ snapshot m (coll, k) = Some d ∧ p d = true.
Proof.
  unfold query_docs. rewrite list_elem_of_filter, collection_docs_elem.
  cbn. tauto.
Qed.

Lemma query_result_lookup (m : Docs) coll p k d :
  reduce_docs (query_docs m coll p) !! k = Some d
  ↔ snapshot m (coll, k) = Some d ∧ p d = true.
Proof.
  rewrite reduce_docs_lookup; [apply query_docs_elem|].
  intros k0 d0 d0' [H1 _]%query_docs_elem [H2 _]%query_docs_elem.
  congruence.
Qed.

Lemma where_ne_differs field v d :
  where_ne field v d = true → d !! field ≠ Some v.
Proof.
  unfold where_ne. destruct (d !! field) as [x|]; [|done].
  destruct x; try done; intros H%bool_decide_eq_true; congruence.
Qed.

(** C8: whatever the store holds and whichever owner is excluded, the
    mapping [getAllListings] resolves to, and every mapping the listener
    hands to [setListings], holds under each key the listing stored under
    that id, only listings whose [sellerId] is present and differs from
    the excluded id, and all of those: two listings never share a key. *)
Theorem owner_exclusion (docs : Docs) (id : UserId) :
  ∃ result,
    getAllListings (mkBackend docs None) id = Resolved result ∧
    (∀ k d, result !! k = Some d → d !! "sellerId" ≠ Some (VStr id)) ∧
    (∀ k d, result !! k = Some d ↔
            snapshot docs ("listings", k) = Some d ∧
            where_ne "sellerId" (VStr id) d = true) ∧
    NoDup (map_to_list result).*1 ∧
    ∀ (states : list Docs) snap,
      snap ∈ createPostListingListener id states →
      (∀ k d, snap !! k = Some d → d !! "sellerId" ≠ Some (VStr id)) ∧
      NoDup (map_to_list snap).*1 ∧
      ∃ m, m ∈ states ∧
        ∀ k d, snap !! k = Some d ↔
               snapshot m ("listings", k) = Some d ∧
               where_ne "sellerId" (VStr id) d = true.
Proof.
  eexists. split; [reflexivity|]. split; [|split; [|split]].
  - intros k d [_ H]%query_result_lookup. by apply where_ne_differs.
  - intros k d. apply query_result_lookup.
  - apply NoDup_fst_map_to_list.
  - intros states snap (m & -> & Hm)%list_elem_of_fmap.
    unfold listener_callback. split; [|split].
    + intros k d [_ H]%query_result_lookup. by apply where_ne_differs.
    + apply NoDup_fst_map_to_list.
    + exists m. split; [done|]. intros k d. apply query_result_lookup.
Qed.

(** C9 (amended): [getDocument] answers an absent document with [null]
    and a store failure with a rejection, so the two can be told apart;
    [getUserProfile] answers an absent user with [null] and, catching the
    failure, a store failure with [null] too. *)
Theorem point_lookup_outcomes (docs : Docs) (path : DocRef) (userId : UserId)
    (e : Error) :
  getDocument (mkBackend docs None) path = Resolved (snapshot docs path) ∧
  getDocument (mkBackend docs (Some e)) path = Rejected e ∧
  getUserProfile (mkBackend docs None) userId
  = Resolved (snapshot docs ("users", userId)) ∧
  getUserProfile (mkBackend docs (Some e)) userId = Resolved None.
Proof.
  unfold getDocument, getUserProfile, getDoc. cbn.
  repeat split; by destruct (snapshot docs _).
Qed.

End Facade.

(** ** The claims on sample publications *)

(** Publishing [bike] into an empty store creates the BIKE aggregate with
    count one. *)
Example publish_first_bike :
  countActiveListings (w_docs world_with_bike) "BIKE" = Some (VNum 1).
Proof. vm_compute. reflexivity. Qed.

(** Publishing [ebike] next leaves BIKE at two and creates ELEC with one. *)
Example publish_second_listing :
  let s := run_alone sample_gen_id sample_upload 5 (steps_needed ebike)
             world_with_bike (uploadListing ebike) in
  result_of s 0 = Some (Resolved tt) ∧
  countActiveListings (w_docs (world s)) "BIKE" = Some (VNum 2) ∧
  countActiveListings (w_docs (world s)) "ELEC" = Some (VNum 1).
Proof. vm_compute. repeat split; reflexivity. Qed.

(** C1 on [ebike], published alone after [bike]. *)
Lemma uploadListing_category_writes_witness :
  let sched := replicate (steps_needed ebike) (LClient 0%nat) in
  let s := exec sample_gen_id sample_upload 5 sched (publish ebike world_with_bike) in
  result_of s 0 = Some (Resolved tt) ∧
  ∃ c hist n r url obs,
    clients s = [c] ∧
    length obs = length (categories ebike) ∧
    c_trace c
    = hist ++ EvAttempt n :: EvNewDoc r :: upload_trace ebike r url
        ++ gets_trace ebike obs
        ++ EvSet r (listingData ebike r.2 url)
           :: map ev_of_write (cat_writes ebike obs) ++ [EvCommit true] ∧
    (∀ e, e ∈ EvNewDoc r :: upload_trace ebike r url ++ gets_trace ebike obs →
          is_write_event e = false) ∧
    (∀ i category, categories ebike !! i = Some category →
       ∃ o,
         gets_trace ebike obs !! i
         = Some (EvGet ("categories", category) (found o)) ∧
         map ev_of_write (cat_writes ebike obs) !! i
         = Some (if found o
                 then EvUpdate ("categories", category)
                        [("countActiveListings", FIncrement 1)]
                 else EvSet ("categories", category)
                        {["countActiveListings" := VNum 1]})) ∧
    (∀ (d : DocData) m,
       d !! "countActiveListings" = Some (VNum m) →
       apply_update [("countActiveListings", FIncrement 1)] d
         !! "countActiveListings" = Some (VNum (m + 1))).
Proof.
  assert (H : result_of
                (exec sample_gen_id sample_upload 5
                   (replicate (steps_needed ebike) (LClient 0%nat))
                   (publish ebike world_with_bike)) 0
              = Some (Resolved tt)) by (vm_compute; reflexivity).
  split; [exact H|].
  exact (uploadListing_category_writes sample_gen_id sample_upload 5
           ebike world_with_bike _ H).
Defined.

(** C5 on [ebike], refused once because ELEC was created meanwhile. *)
Lemma publish_increments_once_witness :
  result_of (exec sample_gen_id sample_upload 5 retry_schedule
               (publish ebike world_with_bike)) 0 = Some (Resolved tt) ∧
  ∃ sched1 sched2,
    retry_schedule = sched1 ++ LClient 0 :: sched2 ∧
    let before := world (exec sample_gen_id sample_upload 5 sched1
                           (mkSys world_with_bike [])) in
    let after := world (exec sample_gen_id sample_upload 5
                          (sched1 ++ [LClient 0%nat])
                          (publish ebike world_with_bike)) in
    (∀ c, c ∈ categories ebike → occurrences c (categories ebike) = 1%nat →
          countActiveListings (w_docs after) c
          = Some (bump (countActiveListings (w_docs before) c))) ∧
    (NoDup (categories ebike) →
     ∀ c, c ∈ categories ebike →
          countActiveListings (w_docs after) c
          = Some (bump (countActiveListings (w_docs before) c))) ∧
    w_docs (world (exec sample_gen_id sample_upload 5 retry_schedule
                     (publish ebike world_with_bike)))
    = w_docs (world (exec sample_gen_id sample_upload 5 sched2
                       (mkSys after []))).
Proof.
  assert (H : result_of (exec sample_gen_id sample_upload 5 retry_schedule
                           (publish ebike world_with_bike)) 0
              = Some (Resolved tt)) by (vm_compute; reflexivity).
  split; [exact H|].
  exact (publish_increments_once sample_gen_id sample_upload 5
           ebike world_with_bike retry_schedule H).
Defined.

(** In that run the first attempt of [ebike] was refused; BIKE went from
    one to two and ELEC, created meanwhile by the other party with count
    one, to two. *)
Example retried_publish_counts_once :
  let s := exec sample_gen_id sample_upload 5 retry_schedule
             (publish ebike world_with_bike) in
  c_attempt <$> clients s = [2%nat] ∧
  countActiveListings (w_docs (world s)) "BIKE" = Some (VNum 2) ∧
  countActiveListings (w_docs (world s)) "ELEC" = Some (VNum 2).
Proof. vm_compute. repeat split; reflexivity. Qed.

(** C10 on [twice], which names BIKE two times. *)
Lemma uploadListing_no_dedup_witness :
  let sched := replicate (steps_needed twice) (LClient 0%nat) in
  occurrences "BIKE" (categories twice) = 2%nat ∧ (1 < 2)%nat ∧
  result_of (exec sample_gen_id sample_upload 5 sched
               (publish twice world_with_bike)) 0 = Some (Resolved tt) ∧
  ∃ sched1 sched2 cl,
    sched = sched1 ++ LClient 0 :: sched2 ∧
    clients (exec sample_gen_id sample_upload 5 sched
               (publish twice world_with_bike)) = [cl] ∧
    length (filter (λ w, writeRef w = categoryRef "BIKE") (c_writes cl)) = 2%nat ∧
    let before := w_docs (world (exec sample_gen_id sample_upload 5 sched1
                                   (mkSys world_with_bike []))) in
    let after := w_docs (world (exec sample_gen_id sample_upload 5
                                  (sched1 ++ [LClient 0%nat])
                                  (publish twice world_with_bike))) in
    (∀ v (d : DocData) m,
       before !! categoryRef "BIKE" = Some (v, d) →
       d !! "countActiveListings" = Some (VNum m) →
       countActiveListings after "BIKE" = Some (VNum (m + Z.of_nat 2))) ∧
    (before !! categoryRef "BIKE" = None →
     countActiveListings after "BIKE" = Some (VNum 1)).
Proof.
  assert (Ho : occurrences "BIKE" (categories twice) = 2%nat) by reflexivity.
  assert (Hn : (1 < 2)%nat) by lia.
  assert (H : result_of (exec sample_gen_id sample_upload 5
                           (replicate (steps_needed twice) (LClient 0%nat))
                           (publish twice world_with_bike)) 0
              = Some (Resolved tt)) by (vm_compute; reflexivity).
  split; [exact Ho|]. split; [exact Hn|]. split; [exact H|].
  exact (uploadListing_no_dedup sample_gen_id sample_upload 5
           twice world_with_bike _ "BIKE" 2 Ho Hn H).
Defined.

(** Published into the store that holds BIKE with count one, [twice]
    leaves it at three; into an empty store, at one. *)
Example publish_twice_named :
  countActiveListings
    (w_docs (world (run_alone sample_gen_id sample_upload 5 (steps_needed twice)
                      world_with_bike (uploadListing twice))))
    "BIKE" = Some (VNum 3) ∧
  countActiveListings
    (w_docs (world (run_alone sample_gen_id sample_upload 5 (steps_needed twice)
                      empty_world (uploadListing twice))))
    "BIKE" = Some (VNum 1).
Proof. vm_compute. split; reflexivity. Qed.

(** C2 on [bike] and [ebike] called together on an empty store. *)
Lemma concurrent_publish_counts_both_witness :
  let s := exec sample_gen_id sample_upload 5 (LClient <$> race_schedule)
             (publish2 bike ebike empty_world) in
  (2 ≤ 5)%nat ∧
  occurrences "BIKE" (categories bike) = 1%nat ∧
  occurrences "BIKE" (categories ebike) = 1%nat ∧
  w_docs empty_world !! categoryRef "BIKE" = None ∧
  (∀ img owner, asset bike = Some img → is_Some (sample_upload img owner)) ∧
  (∀ img owner, asset ebike = Some img → is_Some (sample_upload img owner)) ∧
  ((2 * steps_needed bike ≤ turns 0 (LClient <$> race_schedule))%nat →
   (2 * steps_needed ebike ≤ turns 1 (LClient <$> race_schedule))%nat →
   result_of s 0 ≠ None ∧ result_of s 1 ≠ None) ∧
  (result_of s 0 ≠ None → result_of s 1 ≠ None →
   result_of s 0 = Some (Resolved tt) ∧
   result_of s 1 = Some (Resolved tt) ∧
   countActiveListings (w_docs (world s)) "BIKE" = Some (VNum 2) ∧
   ∃ cA cB,
     clients s = [cA; cB] ∧
     (c_attempt cA + c_attempt cB ≤ 3)%nat ∧
     ((WSet (categoryRef "BIKE") countOne ∈ c_writes cA ∧
       WUpdate (categoryRef "BIKE") incrementOne ∈ c_writes cB ∧
       (EvGet (categoryRef "BIKE") false ∈ c_trace cB → c_attempt cB = 2%nat)) ∨
      (WSet (categoryRef "BIKE") countOne ∈ c_writes cB ∧
       WUpdate (categoryRef "BIKE") incrementOne ∈ c_writes cA ∧
       (EvGet (categoryRef "BIKE") false ∈ c_trace cA → c_attempt cA = 2%nat)))).
Proof.
  assert (H1 : (2 ≤ 5)%nat) by lia.
  assert (H2 : occurrences "BIKE" (categories bike) = 1%nat) by reflexivity.
  assert (H3 : occurrences "BIKE" (categories ebike) = 1%nat) by reflexivity.
  assert (H4 : w_docs empty_world !! categoryRef "BIKE" = None) by reflexivity.
  assert (H5 : ∀ img owner, asset bike = Some img →
                            is_Some (sample_upload img owner))
    by (intros img owner H; vm_compute in H; discriminate).
  assert (H6 : ∀ img owner, asset ebike = Some img →
                            is_Some (sample_upload img owner)).
  { intros img owner H. vm_compute in H. injection H as <-.
    unfold sample_upload. rewrite decide_False by discriminate. eauto. }
  repeat (split; [assumption|]).
  exact (concurrent_publish_counts_both sample_gen_id sample_upload 5
           bike ebike empty_world "BIKE" race_schedule H1 H2 H3 H4 H5 H6).
Defined.

(** In that race both publications saw BIKE absent; [ebike] was refused
    once and incremented in its second attempt. *)
Example race_retries_once :
  let s := exec sample_gen_id sample_upload 5 (LClient <$> race_schedule)
             (publish2 bike ebike empty_world) in
  c_attempt <$> clients s = [1%nat; 2%nat] ∧
  countActiveListings (w_docs (world s)) "BIKE" = Some (VNum 2) ∧
  countActiveListings (w_docs (world s)) "ELEC" = Some (VNum 1) ∧
  Forall (λ c, EvGet (categoryRef "BIKE") false ∈ c_trace c) (clients s).
Proof.
  vm_compute. repeat split; try reflexivity.
  repeat constructor.
Qed.



(** C4, as stated, fails: a refused commit makes the callback draw a
    second id and upload the asset a second time. *)
Lemma retry_allocates_again :
  ¬ (∀ (l : ListingInput) (w : World) (sched : list Label) (c : Client),
       clients (exec sample_gen_id sample_upload 5 sched (publish l w)) = [c] →
       c_result c = Some (Resolved tt) →
       count_ev is_newdoc_event (c_trace c) = 1%nat ∧
       (count_ev is_upload_event (c_trace c) ≤ 1)%nat).
Proof.
  intros H.
  assert (∃ c,
            clients (exec sample_gen_id sample_upload 5 retry_schedule
                       (publish ebike world_with_bike)) = [c] ∧
            c_result c = Some (Resolved tt) ∧
            count_ev is_newdoc_event (c_trace c) = 2%nat)
    as (c & Hc & Hr & Hn).
  { vm_compute. eexists. repeat split; reflexivity. }
  destruct (H ebike world_with_bike retry_schedule c Hc Hr) as [Hn' _].
  rewrite Hn in Hn'. discriminate.
Qed.

(** The ids drawn in that run, in order: the second is the one stored. *)
Example retry_draws_two_ids :
  let s := exec sample_gen_id sample_upload 5 retry_schedule
             (publish ebike world_with_bike) in
  (filter (λ e, is_newdoc_event e = true) <$> (c_trace <$> clients s))
  = [[EvNewDoc ("listings", "xid"); EvNewDoc ("listings", "xxid")]] ∧
  snapshot (w_docs (world s)) ("listings", "xid") = None ∧
  snapshot (w_docs (world s)) ("listings", "xxid")
  = Some (listingData ebike "xxid" (Some "gs://xxid")).
Proof. vm_compute. repeat split; reflexivity. Qed.

(** C4 (amended) on the refused-once publication of [ebike]. *)
Lemma uploadListing_allocates_per_attempt_witness :
  result_of (exec sample_gen_id sample_upload 5 retry_schedule
               (publish ebike world_with_bike)) 0 = Some (Resolved tt) ∧
  ∃ c,
    clients (exec sample_gen_id sample_upload 5 retry_schedule
               (publish ebike world_with_bike)) = [c] ∧
    count_ev is_attempt_event (c_trace c) = c_attempt c ∧
    count_ev is_newdoc_event (c_trace c) = c_attempt c ∧
    count_ev is_upload_event (c_trace c)
    = match asset ebike with Some _ => c_attempt c | None => 0%nat end ∧
    count_ev is_commit_event (c_trace c) = c_attempt c ∧
    ∃ hist r url rest,
      c_trace c = hist ++ EvAttempt (c_attempt c) :: EvNewDoc r :: rest ∧
      EvSet r (listingData ebike r.2 url) ∈ rest ∧
      (∀ e, e ∈ rest → is_newdoc_event e = false).
Proof.
  assert (H : result_of (exec sample_gen_id sample_upload 5 retry_schedule
                           (publish ebike world_with_bike)) 0
              = Some (Resolved tt)) by (vm_compute; reflexivity).
  split; [exact H|].
  exact (uploadListing_allocates_per_attempt sample_gen_id sample_upload 5
           ebike world_with_bike retry_schedule H).
Defined.

(** C6, as stated, fails: two publications that stored their listings
    under different ids resolved to the same value, so no id can be read
    off it. *)
Lemma uploadListing_returns_no_id :
  ¬ ∃ id_of : Promise unit → ListingId,
      ∀ (w : World) p,
        let s := run_alone sample_gen_id sample_upload 5 (steps_needed bike) w
                   (uploadListing bike) in
        result_of s 0 = Some p →
        snapshot (w_docs (world s)) ("listings", id_of p) ≠ None.
Proof.
  intros [id_of H].
  pose proof (H empty_world (Resolved tt) eq_refl) as H0.
  pose proof (H (mkWorld ∅ 0 1) (Resolved tt) eq_refl) as H1.
  cbn zeta in H0, H1.
  destruct (decide (id_of (Resolved tt) = "id")) as [E|E].
  - rewrite E in H1. apply H1. vm_compute. reflexivity.
  - apply H0. unfold snapshot.
    assert (Hother : ∀ id, id ≠ "id" →
      w_docs (world (run_alone sample_gen_id sample_upload 5 (steps_needed bike)
                       empty_world (uploadListing bike)))
        !! ("listings", id) = None).
    { intros id Hid.
      destruct (run_alone_publishes sample_gen_id sample_upload 5 bike empty_world 0)
        as (url & m' & _ & (_ & _ & _ & Hrest) & Hrun).
      { intros img Hi. vm_compute in Hi. discriminate. }
      rewrite Nat.add_0_r in Hrun. rewrite Hrun. cbn [world w_docs].
      rewrite Hrest.
      - reflexivity.
      - cbn. intros [= Hx]. apply Hid. rewrite Hx. reflexivity.
      - cbn. intros Hin. apply list_elem_of_singleton in Hin. discriminate. }
    rewrite Hother by exact E. reflexivity.
Qed.

(** C6 (amended) on [bike] published alone. *)
Lemma uploadListing_resolves_void_witness :
  let sched := replicate (steps_needed bike) (LClient 0%nat) in
  result_of (exec sample_gen_id sample_upload 5 sched
               (publish bike empty_world)) 0 = Some (Resolved tt) ∧
  (∀ p : Promise unit, p = Resolved tt ∨ ∃ e, p = Rejected e) ∧
  ∃ sched1 sched2 id url t c,
    sched = sched1 ++ LClient 0 :: sched2 ∧
    clients (exec sample_gen_id sample_upload 5 sched
               (publish bike empty_world)) = [c] ∧
    EvNewDoc ("listings", id) ∈ c_trace c ∧
    w_docs (world (exec sample_gen_id sample_upload 5 (sched1 ++ [LClient 0%nat])
                     (publish bike empty_world)))
      !! ("listings", id) = Some (t, listingData bike id url) ∧
    listingData bike id url !! "listingId" = Some (VStr id).
Proof.
  assert (H : result_of (exec sample_gen_id sample_upload 5
                           (replicate (steps_needed bike) (LClient 0%nat))
                           (publish bike empty_world)) 0
              = Some (Resolved tt)) by (vm_compute; reflexivity).
  split; [exact H|].
  exact (uploadListing_resolves_void sample_gen_id sample_upload 5
           bike empty_world _ H).
Defined.



(** C9, as stated, fails for the user-profile fetch: an unreachable store
    and an absent user give the same answer. *)
Lemma getUserProfile_hides_failure :
  ¬ (∀ (b1 b2 : Backend) (userId : UserId),
       b_fault b1 = None → snapshot (b_docs b1) ("users", userId) = None →
       b_fault b2 ≠ None →
       getUserProfile b1 userId ≠ getUserProfile b2 userId).
Proof.
  intros H. apply (H online_empty offline "u1"); [reflexivity|reflexivity|discriminate|].
  reflexivity.
Qed.

(** ** Publishing and reading together *)

Section Together.

Variable gen_id : nat → string.
Variable upload : string → string → option string.
Variable maxAttempts : nat.

Lemma where_ne_str field (a b : string) (d : DocData) :
  d !! field = Some (VStr a) →
  where_ne field (VStr b) d = bool_decide (a ≠ b).
Proof.
  intros H. unfold where_ne. rewrite H.
  apply bool_decide_ext. split; [congruence|]. by intros Hne [= ->].
Qed.

(** X12: who sees a new listing.  After a publication that ran alone,
    [getAllListings] holds the new listing under its id for every viewer
    other than the seller and holds nothing under that id for the seller;
    under every other key it resolves to what it resolved to before. *)
Theorem published_listing_visibility l w viewer :
  (∀ img, asset l = Some img → is_Some (upload img (gen_id (w_draws w)))) →
  let s := run_alone gen_id upload maxAttempts (steps_needed l) w
             (uploadListing l) in
  let id := gen_id (w_draws w) in
  ∃ before after,
    getAllListings (mkBackend (w_docs w) None) viewer = Resolved before ∧
    getAllListings (mkBackend (w_docs (world s)) None) viewer
    = Resolved after ∧
    (viewer ≠ sellerId l →
     ∃ d, after !! id = Some d ∧ d !! "sellerId" = Some (VStr (sellerId l)) ∧
          d !! "title" = Some (VStr (title l))) ∧
    (viewer = sellerId l → after !! id = None) ∧
    (∀ k, k ≠ id → after !! k = before !! k).
Proof.
  intros Hup.
  destruct (run_alone_publishes gen_id upload maxAttempts l w 0 Hup)
    as (url & m' & _ & (_ & Hdoc & _ & Hother) & Hrun).
  rewrite Nat.add_0_r in Hrun. cbn zeta. rewrite Hrun.
  unfold getAllListings. cbn [world w_docs b_fault b_docs].
  eexists _, _. split; [reflexivity|]. split; [reflexivity|].
  destruct (listingData_fields l (gen_id (w_draws w)) url)
    as (Hseller & Htitle & _).
  assert (Hsnap : snapshot m' ("listings", gen_id (w_draws w))
                = Some (listingData l (gen_id (w_draws w)) url))
    by (unfold snapshot; by rewrite Hdoc).
  split; [|split].
  - intros Hv. eexists. split; [|split; [exact Hseller|exact Htitle]].
    apply query_result_lookup. split; [done|].
    rewrite (where_ne_str _ _ _ _ Hseller). by apply bool_decide_eq_true_2.
  - intros ->. apply eq_None_not_Some. intros [d Hd].
    apply query_result_lookup in Hd as [Hd Hw]. rewrite Hsnap in Hd.
    injection Hd as <-. rewrite (where_ne_str _ _ _ _ Hseller) in Hw.
    by apply bool_decide_eq_true in Hw.
  - intros k Hk. apply option_eq. intros d.
    rewrite !query_result_lookup. unfold snapshot. rewrite Hother; [done|..].
    + by intros [= E].
    + unfold categoryRefs. intros (c & [= E] & _)%list_elem_of_fmap.
Qed.

End Together.

(** ** Point writes *)

Section Writes.

Lemma setDocument_docs (b : Backend) t path data merge :
  b_fault b = None →
  setDocument b t path data merge
  = (Resolved tt,
     mkBackend (<[path := (t, data ∪ default ∅ (snapshot (b_docs b) path))]>
                  (b_docs b)) None).
Proof. intros H. unfold setDocument, setDoc. by rewrite H. Qed.

(** X13: what is read after a write.  [setDocument] on a reachable store
    resolves, and [getDocument] of the same path then resolves to a
    document in which every field given has the value given and every
    other field is as it was stored before, whether [merge] was passed as
    true or as false: the document is never replaced. *)
Theorem setDocument_reads_back (b : Backend) t path (data : DocData) merge :
  b_fault b = None →
  ∃ d,
    (setDocument b t path data merge).1 = Resolved tt ∧
    getDocument (setDocument b t path data merge).2 path = Resolved (Some d) ∧
    (∀ f v, data !! f = Some v → d !! f = Some v) ∧
    (∀ f, data !! f = None →
          d !! f = snapshot (b_docs b) path ≫= λ old, old !! f).
Proof.
  intros H. rewrite (setDocument_docs b t path data merge H). cbn [fst snd].
  eexists. split; [done|]. split.
  - unfold getDocument, getDoc, snapshot. cbn [b_fault b_docs].
    rewrite lookup_insert_eq. cbn. reflexivity.
  - split.
    + intros f v Hf. by apply lookup_union_Some_l.
    + intros f Hf. rewrite lookup_union_r by done.
      unfold snapshot.
      destruct (b_docs b !! path) as [[??]|]; [reflexivity|apply lookup_empty].
Qed.


End Writes.

(** ** The detail screen *)

Section Screen.

Variable gen_id : nat → string.
Variable upload : string → string → option string.
Variable maxAttempts : nat.
Variable getTimeAgo : option Value → string.

(** X15: the detail screen and a missing listing.  For a non-empty
    [itemId], [fetchListing] sets the listing state exactly when the store
    answers with an existing document; when there is no such listing the
    function throws on [datePosted] before any state is set, as it does
    (with the store's error) when the store cannot be reached.  For a
    listing just published alone it sets the time from the [datePosted]
    given and then the listing. *)
Theorem fetchListing_sets_only_existing (b : Backend) (itemId : string)
    (l : ListingInput) (w : World) :
  truthy itemId = true →
  (∀ d, SetListing d ∈ (fetchListing getTimeAgo b itemId).2 ↔
        b_fault b = None ∧ snapshot (b_docs b) ("listings", itemId) = Some d) ∧
  (b_fault b = None → snapshot (b_docs b) ("listings", itemId) = None →
   fetchListing getTimeAgo b itemId = (Rejected TypeError, [])) ∧
  (∀ e, b_fault b = Some e →
        fetchListing getTimeAgo b itemId = (Rejected e, [])) ∧
  (itemId = gen_id (w_draws w) →
   (∀ img, asset l = Some img → is_Some (upload img (gen_id (w_draws w)))) →
   ∃ d,
     fetchListing getTimeAgo
       (mkBackend
          (w_docs (world (run_alone gen_id upload maxAttempts (steps_needed l)
                            w (uploadListing l)))) None) itemId
     = (Resolved tt,
        [SetTimeAgo (getTimeAgo (Some (VDate (datePosted l)))); SetListing d]) ∧
     d !! "listingId" = Some (VStr itemId)).
Proof.
  intros Ht. unfold fetchListing. rewrite Ht.
  unfold getDocument, getDoc. split; [|split; [|split]].
  - intros d. destruct (b_fault b) as [e|]; cbn.
    + split; [by intros H%elem_of_nil|by intros [[=] _]].
    + destruct (snapshot (b_docs b) ("listings", itemId)) as [d'|]; cbn.
      * split.
        -- intros [[=]|[[= ->]|H%elem_of_nil]%elem_of_cons]%elem_of_cons; done.
        -- intros [_ [= ->]]. set_solver.
      * split; [by intros H%elem_of_nil|by intros [_ [=]]].
  - intros -> ->. done.
  - intros e ->. done.
  - intros -> Hup.
    destruct (run_alone_publishes gen_id upload maxAttempts l w 0 Hup)
      as (url & m' & _ & (_ & Hdoc & _) & Hrun).
    rewrite Nat.add_0_r in Hrun. rewrite Hrun. cbn [world w_docs b_fault b_docs].
    unfold snapshot. rewrite Hdoc. cbn.
    destruct (listingData_fields l (gen_id (w_draws w)) url)
      as (_ & _ & _ & Hdate & _).
    rewrite Hdate. eexists. split; [reflexivity|apply listingData_id].
Qed.

End Screen.

(** ** The further properties on sample data *)

Lemma sample_upload_bike img owner :
  asset bike = Some img → is_Some (sample_upload img owner).
Proof. intros H. vm_compute in H. discriminate. Qed.

Lemma sample_upload_ebike img owner :
  asset ebike = Some img → is_Some (sample_upload img owner).
Proof.
  intros H. vm_compute in H. injection H as <-.
  unfold sample_upload. rewrite decide_False by discriminate. eauto.
Qed.

(** X1 on [bike], starved by another party that rewrites BIKE. *)
Lemma publish_all_or_nothing_witness :
  result_of (exec sample_gen_id sample_upload 2 starving_schedule
               (publish bike empty_world)) 0 ≠ Some (Resolved tt) ∧
  w_docs (world (exec sample_gen_id sample_upload 2 starving_schedule
                   (publish bike empty_world)))
  = w_docs (world (exec sample_gen_id sample_upload 2 starving_schedule
                     (mkSys empty_world []))).
Proof.
  assert (H : result_of (exec sample_gen_id sample_upload 2 starving_schedule
                           (publish bike empty_world)) 0
              ≠ Some (Resolved tt))
    by (intros E; vm_compute in E; discriminate).
  split; [exact H|].
  exact (publish_all_or_nothing sample_gen_id sample_upload 2
           bike empty_world starving_schedule H).
Defined.


(** X3 on [bike], refused in both of the two attempts allowed. *)
Lemma publish_gives_up_witness :
  ∃ c,
    clients (exec sample_gen_id sample_upload 2 starving_schedule
               (publish bike empty_world)) = [c] ∧
    c_result c = Some (Rejected Aborted) ∧
    c_attempt c = max 1 2 ∧
    count_ev is_attempt_event (c_trace c) = c_attempt c ∧
    count_ev is_commit_event (c_trace c) = c_attempt c ∧
    w_docs (world (exec sample_gen_id sample_upload 2 starving_schedule
                     (publish bike empty_world)))
    = w_docs (world (exec sample_gen_id sample_upload 2 starving_schedule
                       (mkSys empty_world []))).
Proof.
  assert (∃ c,
            clients (exec sample_gen_id sample_upload 2 starving_schedule
                       (publish bike empty_world)) = [c] ∧
            c_result c = Some (Rejected Aborted))
    as (c & Hc & Hr).
  { vm_compute. eexists. split; reflexivity. }
  exists c. split; [exact Hc|]. split; [exact Hr|].
  exact (publish_gives_up sample_gen_id sample_upload 2
           bike empty_world starving_schedule c Hc Hr).
Defined.

(** In that run the other party's aggregate is all the store holds. *)
Example starved_publish_leaves_nothing :
  let s := exec sample_gen_id sample_upload 2 starving_schedule
             (publish bike empty_world) in
  result_of s 0 = Some (Rejected Aborted) ∧
  (map_to_list (w_docs (world s))).*1 = [categoryRef "BIKE"].
Proof. vm_compute. split; reflexivity. Qed.

(** X4 on [ebike], refused once and then committed. *)
Lemma publish_touches_only_witness :
  result_of (exec sample_gen_id sample_upload 5 retry_schedule
               (publish ebike world_with_bike)) 0 = Some (Resolved tt) ∧
  ∃ sched1 sched2 id c,
    retry_schedule = sched1 ++ LClient 0 :: sched2 ∧
    clients (exec sample_gen_id sample_upload 5 retry_schedule
               (publish ebike world_with_bike)) = [c] ∧
    EvNewDoc ("listings", id) ∈ c_trace c ∧
    let before := w_docs (world (exec sample_gen_id sample_upload 5 sched1
                                   (mkSys world_with_bike []))) in
    let after := w_docs (world (exec sample_gen_id sample_upload 5
                                  (sched1 ++ [LClient 0%nat])
                                  (publish ebike world_with_bike))) in
    ∀ ρ : DocRef,
      ρ ≠ ("listings", id) → ρ ∉ categoryRefs ebike →
      after !! ρ = before !! ρ.
Proof.
  assert (H : result_of (exec sample_gen_id sample_upload 5 retry_schedule
                           (publish ebike world_with_bike)) 0
              = Some (Resolved tt)) by (vm_compute; reflexivity).
  split; [exact H|].
  exact (publish_touches_only sample_gen_id sample_upload 5
           ebike world_with_bike retry_schedule H).
Defined.

(** X5 on [twice], published where BIKE counts four. *)
Lemma publish_counts_grow_witness :
  let sched := replicate (steps_needed twice) (LClient 0%nat) in
  result_of (exec sample_gen_id sample_upload 5 sched
               (publish twice world_with_sold)) 0 = Some (Resolved tt) ∧
  ∃ sched1 sched2,
    sched = sched1 ++ LClient 0 :: sched2 ∧
    let before := w_docs (world (exec sample_gen_id sample_upload 5 sched1
                                   (mkSys world_with_sold []))) in
    let after := w_docs (world (exec sample_gen_id sample_upload 5
                                  (sched1 ++ [LClient 0%nat])
                                  (publish twice world_with_sold))) in
    ∀ c m,
      countActiveListings before c = Some (VNum m) →
      countActiveListings after c
      = Some (VNum (m + Z.of_nat (occurrences c (categories twice)))) ∧
      (c ∉ categories twice → countActiveListings after c = Some (VNum m)).
Proof.
  assert (H : result_of (exec sample_gen_id sample_upload 5
                           (replicate (steps_needed twice) (LClient 0%nat))
                           (publish twice world_with_sold)) 0
              = Some (Resolved tt)) by (vm_compute; reflexivity).
  split; [exact H|].
  exact (publish_counts_grow sample_gen_id sample_upload 5
           twice world_with_sold _ H).
Defined.

(** X6 on [ebike], published where BIKE has a sold count and ELEC does
    not exist. *)
Lemma publish_keeps_aggregate_fields_witness :
  let sched := replicate (steps_needed ebike) (LClient 0%nat) in
  result_of (exec sample_gen_id sample_upload 5 sched
               (publish ebike world_with_sold)) 0 = Some (Resolved tt) ∧
  ∃ sched1 sched2,
    sched = sched1 ++ LClient 0 :: sched2 ∧
    let before := w_docs (world (exec sample_gen_id sample_upload 5 sched1
                                   (mkSys world_with_sold []))) in
    let after := w_docs (world (exec sample_gen_id sample_upload 5
                                  (sched1 ++ [LClient 0%nat])
                                  (publish ebike world_with_sold))) in
    ∀ c, c ∈ categories ebike →
      (before !! categoryRef c = None →
       snapshot after (categoryRef c)
       = Some {["countActiveListings" := VNum 1]}) ∧
      (∀ v (d : DocData),
         before !! categoryRef c = Some (v, d) →
         ∃ d', snapshot after (categoryRef c) = Some d' ∧
               ∀ f, f ≠ "countActiveListings" → d' !! f = d !! f).
Proof.
  assert (H : result_of (exec sample_gen_id sample_upload 5
                           (replicate (steps_needed ebike) (LClient 0%nat))
                           (publish ebike world_with_sold)) 0
              = Some (Resolved tt)) by (vm_compute; reflexivity).
  split; [exact H|].
  exact (publish_keeps_aggregate_fields sample_gen_id sample_upload 5
           ebike world_with_sold _ H).
Defined.

(** After that publication BIKE counts five active and still seven sold. *)
Example publish_keeps_sold_count :
  let s := run_alone sample_gen_id sample_upload 5 (steps_needed ebike)
             world_with_sold (uploadListing ebike) in
  snapshot (w_docs (world s)) (categoryRef "BIKE")
  = Some (<["countActiveListings" := VNum 5]> sold_aggregate) ∧
  snapshot (w_docs (world s)) (categoryRef "ELEC") = Some countOne.
Proof. vm_compute. split; reflexivity. Qed.

(** X7 on [ebike], published alone into an empty store. *)
Lemma published_listing_reads_back_witness :
  let s := run_alone sample_gen_id sample_upload 5 (steps_needed ebike)
             empty_world (uploadListing ebike) in
  let id := sample_gen_id (w_draws empty_world) in
  (∀ img, asset ebike = Some img → is_Some (sample_upload img id)) ∧
  ∃ d,
    getDocument (mkBackend (w_docs (world s)) None) ("listings", id)
    = Resolved (Some d) ∧
    d !! "listingId" = Some (VStr id) ∧
    d !! "sellerId" = Some (VStr (sellerId ebike)) ∧
    d !! "title" = Some (VStr (title ebike)) ∧
    d !! "price" = Some (VNum (price ebike)) ∧
    d !! "datePosted" = Some (VDate (datePosted ebike)) ∧
    d !! "description" = Some (VStr (description ebike)) ∧
    d !! "categories" = Some (VArr (categories ebike)) ∧
    d !! "isListingActive" = Some (VBool (isListingActive ebike)).
Proof.
  assert (H : ∀ img, asset ebike = Some img →
                     is_Some (sample_upload img
                                (sample_gen_id (w_draws empty_world))))
    by (intros img; apply sample_upload_ebike).
  split; [exact H|].
  exact (published_listing_reads_back sample_gen_id sample_upload 5
           ebike empty_world H).
Defined.

(** X8 on [bike], which has no image. *)
Lemma published_imagePath_witness :
  let s := run_alone sample_gen_id sample_upload 5 (steps_needed bike)
             empty_world (uploadListing bike) in
  let id := sample_gen_id (w_draws empty_world) in
  (∀ img, asset bike = Some img → is_Some (sample_upload img id)) ∧
  ∃ d c,
    snapshot (w_docs (world s)) ("listings", id) = Some d ∧
    clients s = [c] ∧
    d !! "imagePath" = VStr <$> stored_imagePath sample_upload bike id ∧
    (image bike = None ∨ image bike = Some EmptyString →
     d !! "imagePath" = None ∧ count_ev is_upload_event (c_trace c) = 0%nat).
Proof.
  assert (H : ∀ img, asset bike = Some img →
                     is_Some (sample_upload img
                                (sample_gen_id (w_draws empty_world))))
    by (intros img; apply sample_upload_bike).
  split; [exact H|].
  exact (published_imagePath sample_gen_id sample_upload 5 bike empty_world H).
Defined.

(** [ebike] is stored with the URL the uploader gave for its own id. *)
Example ebike_stored_with_image :
  let s := run_alone sample_gen_id sample_upload 5 (steps_needed ebike)
             world_with_bike (uploadListing ebike) in
  (snapshot (w_docs (world s)) ("listings", "xid") ≫= λ d, d !! "imagePath")
  = Some (VStr "gs://xid").
Proof. vm_compute. reflexivity. Qed.

(** X9 on [invalid_listing], which names no category. *)
Lemma publish_without_categories_witness :
  let s := run_alone sample_gen_id sample_upload 5
             (steps_needed invalid_listing) world_with_bike
             (uploadListing invalid_listing) in
  let id := sample_gen_id (w_draws world_with_bike) in
  categories invalid_listing = [] ∧
  (∀ img, asset invalid_listing = Some img →
          is_Some (sample_upload img id)) ∧
  result_of s 0 = Some (Resolved tt) ∧
  ∃ d,
    d !! "categories" = Some (VArr []) ∧
    w_docs (world s)
    = <[("listings", id) := (S (w_clock world_with_bike), d)]>
        (w_docs world_with_bike).
Proof.
  assert (Hc : categories invalid_listing = []) by reflexivity.
  assert (H : ∀ img, asset invalid_listing = Some img →
                     is_Some (sample_upload img
                                (sample_gen_id (w_draws world_with_bike))))
    by (intros img Hi; vm_compute in Hi; discriminate).
  split; [exact Hc|]. split; [exact H|].
  exact (publish_without_categories sample_gen_id sample_upload 5
           invalid_listing world_with_bike Hc H).
Defined.

(** X10 on [bike] and then [ebike], published into an empty store. *)
Lemma publish_all_counts_witness :
  (∀ l, l ∈ [bike; ebike] → NoDup (categories l)) ∧
  (∀ l img owner, l ∈ [bike; ebike] → asset l = Some img →
                  is_Some (sample_upload img owner)) ∧
  countActiveListings
    (w_docs (publish_all sample_gen_id sample_upload 5 [bike; ebike]
               empty_world)) "BIKE"
  = bump_n (naming "BIKE" [bike; ebike])
      (countActiveListings (w_docs empty_world) "BIKE") ∧
  (countActiveListings (w_docs empty_world) "BIKE" = None →
   naming "BIKE" [bike; ebike] ≠ 0%nat →
   countActiveListings
     (w_docs (publish_all sample_gen_id sample_upload 5 [bike; ebike]
                empty_world)) "BIKE"
   = Some (VNum (Z.of_nat (naming "BIKE" [bike; ebike])))).
Proof.
  assert (H1 : ∀ l, l ∈ [bike; ebike] → NoDup (categories l)).
  { intros l [->|[->|H%elem_of_nil]%elem_of_cons]%elem_of_cons;
      [| |done]; cbn; repeat constructor; set_solver. }
  assert (H2 : ∀ l img owner, l ∈ [bike; ebike] → asset l = Some img →
                              is_Some (sample_upload img owner)).
  { intros l img owner [->|[->|H%elem_of_nil]%elem_of_cons]%elem_of_cons;
      [apply sample_upload_bike|apply sample_upload_ebike|done]. }
  split; [exact H1|]. split; [exact H2|].
  exact (publish_all_counts sample_gen_id sample_upload 5
           [bike; ebike] empty_world "BIKE" H1 H2).
Defined.

(** After [bike], [ebike] and [twice] BIKE counts three: [twice] adds one
    to an aggregate that exists. *)
Example publish_three_listings :
  let w := publish_all sample_gen_id sample_upload 5 [bike; ebike; twice]
             empty_world in
  countActiveListings (w_docs w) "BIKE" = Some (VNum 4) ∧
  countActiveListings (w_docs w) "ELEC" = Some (VNum 1).
Proof. vm_compute. split; reflexivity. Qed.

(** X11 on [ebike], categorized as a bike and as electric. *)
Lemma publish_enum_categories_witness :
  let cs := [inl BIKES; inr ELECTRIC] in
  categories ebike = category_code <$> cs ∧ NoDup cs ∧
  (∀ img owner, asset ebike = Some img → is_Some (sample_upload img owner)) ∧
  NoDup (categories ebike) ∧
  ∀ c, c ∈ cs →
    countActiveListings
      (w_docs (world (run_alone sample_gen_id sample_upload 5
                        (steps_needed ebike) world_with_bike
                        (uploadListing ebike))))
      (category_code c)
    = Some (bump (countActiveListings (w_docs world_with_bike)
                    (category_code c))).
Proof.
  assert (H1 : categories ebike
               = category_code <$> [inl BIKES; inr ELECTRIC]) by reflexivity.
  assert (H2 : NoDup [inl BIKES; inr ELECTRIC : CategoryType + BikeCategoryType]).
  { repeat constructor; rewrite ?elem_of_cons, ?elem_of_nil;
      intros H; intuition discriminate. }
  split; [exact H1|]. split; [exact H2|].
  split; [exact sample_upload_ebike|].
  exact (publish_enum_categories sample_gen_id sample_upload 5
           ebike world_with_bike _ H1 H2 sample_upload_ebike).
Defined.

(** X12 on [bike] of seller u1, seen by u2. *)
Lemma published_listing_visibility_witness :
  let s := run_alone sample_gen_id sample_upload 5 (steps_needed bike)
             world_with_bike (uploadListing bike) in
  let id := sample_gen_id (w_draws world_with_bike) in
  (∀ img, asset bike = Some img → is_Some (sample_upload img id)) ∧
  ∃ before after,
    getAllListings (mkBackend (w_docs world_with_bike) None) "u2"
    = Resolved before ∧
    getAllListings (mkBackend (w_docs (world s)) None) "u2"
    = Resolved after ∧
    ("u2" ≠ sellerId bike →
     ∃ d, after !! id = Some d ∧
          d !! "sellerId" = Some (VStr (sellerId bike)) ∧
          d !! "title" = Some (VStr (title bike))) ∧
    ("u2" = sellerId bike → after !! id = None) ∧
    (∀ k, k ≠ id → after !! k = before !! k).
Proof.
  assert (H : ∀ img, asset bike = Some img →
                     is_Some (sample_upload img
                                (sample_gen_id (w_draws world_with_bike))))
    by (intros img; apply sample_upload_bike).
  split; [exact H|].
  exact (published_listing_visibility sample_gen_id sample_upload 5
           bike world_with_bike "u2" H).
Defined.

(** X13 on a user profile given a phone number with [merge] false. *)
Lemma setDocument_reads_back_witness :
  let data : DocData := {["phone" := VStr "555"]} in
  b_fault store_with_user = None ∧
  ∃ d,
    (setDocument store_with_user 2 ("users", "u1") data false).1
    = Resolved tt ∧
    getDocument (setDocument store_with_user 2 ("users", "u1") data false).2
      ("users", "u1") = Resolved (Some d) ∧
    (∀ f v, data !! f = Some v → d !! f = Some v) ∧
    (∀ f, data !! f = None →
          d !! f = snapshot (b_docs store_with_user) ("users", "u1")
                   ≫= λ old, old !! f).
Proof.
  assert (H : b_fault store_with_user = None) by reflexivity.
  split; [exact H|].
  exact (setDocument_reads_back store_with_user 2 ("users", "u1")
           {["phone" := VStr "555"]} false H).
Defined.

(** The profile keeps its name and e-mail address. *)
Example setDocument_keeps_profile :
  getDocument (setDocument store_with_user 2 ("users", "u1")
                 {["phone" := VStr "555"]} false).2 ("users", "u1")
  = Resolved (Some (<["phone" := VStr "555"]> user_doc)).
Proof. vm_compute. reflexivity. Qed.

(** X15 on the listing [bike] has just been stored as. *)
Lemma fetchListing_sets_only_existing_witness :
  let getTimeAgo : option Value → string := λ _, "just now" in
  truthy "id" = true ∧
  (∀ d, SetListing d ∈ (fetchListing getTimeAgo online_empty "id").2 ↔
        b_fault online_empty = None ∧
        snapshot (b_docs online_empty) ("listings", "id") = Some d) ∧
  (b_fault online_empty = None →
   snapshot (b_docs online_empty) ("listings", "id") = None →
   fetchListing getTimeAgo online_empty "id" = (Rejected TypeError, [])) ∧
  (∀ e, b_fault online_empty = Some e →
        fetchListing getTimeAgo online_empty "id" = (Rejected e, [])) ∧
  ("id" = sample_gen_id (w_draws empty_world) →
   (∀ img, asset bike = Some img →
           is_Some (sample_upload img (sample_gen_id (w_draws empty_world)))) →
   ∃ d,
     fetchListing getTimeAgo
       (mkBackend
          (w_docs (world (run_alone sample_gen_id sample_upload 5
                            (steps_needed bike) empty_world
                            (uploadListing bike)))) None) "id"
     = (Resolved tt,
        [SetTimeAgo (getTimeAgo (Some (VDate (datePosted bike))));
         SetListing d]) ∧
     d !! "listingId" = Some (VStr "id")).
Proof.
  assert (H : truthy "id" = true) by reflexivity.
  split; [exact H|].
  exact (fetchListing_sets_only_existing sample_gen_id sample_upload 5
           (λ _, "just now") online_empty "id" bike empty_world H).
Defined.

